(** * boundedcache: a two-generation bounded cache

    Shallow embedding of the Go package [boundedcache]: the type-parameterized
    cache [BoundedCache[V]] (with [NewBoundedCache], [MaxItems], [Len],
    [Purge], [Add], [Get], [Peek], [GetOrCreate], [addLocked]) and the older
    [interface{}]-typed cache of [cache.go] (module [Legacy]).

    Modelling decisions:
    - a Go [map[string]V] is a [gmap string V]; [len(m)] is [size m] seen as
      an [int];
    - Go's [int] is the 64-bit two's complement integer of the usual targets,
      a [Z] whose arithmetic wraps ([GoInt.wrap]);
    - the receiver [b *BoundedCache[V]] is threaded explicitly: a method
      returns its results together with the cache it leaves behind;
    - the [sync.RWMutex] makes every method body atomic with respect to the
      other methods; the embedding is the sequential behaviour of one call,
      with the look-ups in the order the method performs them;
    - the caller's [create func() V] may have effects of its own; it is a
      state transformer [E -> V * E] on the caller's world [E], so that the
      number of invocations is observable. *)

From Stdlib Require Import ZArith Lia.
From stdpp Require Import base gmap strings list fin_maps.

Local Open Scope Z_scope.

(** ** Go's [int] *)

Module GoInt.

Definition min_int : Z := - 2 ^ 63.
Definition max_int : Z := 2 ^ 63 - 1.

Definition in_range (z : Z) : Prop := min_int <= z <= max_int.

(** Reduction of a mathematical result to its two's complement value. *)
Definition wrap (z : Z) : Z := (z + 2 ^ 63) mod 2 ^ 64 - 2 ^ 63.

Definition add (a b : Z) : Z := wrap (a + b).
Definition mul (a b : Z) : Z := wrap (a * b).
(** Go's [/] truncates toward zero. *)
Definition quot (a b : Z) : Z := wrap (Z.quot a b).

End GoInt.

(** ** Results of a fallible constructor: a pointer or an [error] *)

Inductive result (A : Type) : Type :=
| Ok (a : A)
| Err (msg : string).
Arguments Ok {A} a.
Arguments Err {A} msg.

(** ** The type-parameterized cache *)

Record BoundedCache (V : Type) : Type := mkBoundedCache {
  staleItems : gmap string V;
  freshItems : gmap string V;
  maxItemMapLen : Z
}.
Arguments mkBoundedCache {V} _ _ _.
Arguments staleItems {V} _.
Arguments freshItems {V} _.
Arguments maxItemMapLen {V} _.

(** The operations of the public interface, and what a call returns. *)
Inductive op (V E : Type) : Type :=
| OpAdd (key : string) (val : V)
| OpGet (key : string)
| OpPeek (key : string)
| OpGetOrCreate (key : string) (create : E -> V * E)
| OpLen
| OpMaxItems
| OpPurge.
Arguments OpAdd {V E} key val.
Arguments OpGet {V E} key.
Arguments OpPeek {V E} key.
Arguments OpGetOrCreate {V E} key create.
Arguments OpLen {V E}.
Arguments OpMaxItems {V E}.
Arguments OpPurge {V E}.

Inductive ret (V : Type) : Type :=
| RetAdd (evicted : bool)
| RetGet (val : V) (ok evicted : bool)
| RetPeek (val : V) (ok stale : bool)
| RetGetOrCreate (val : V) (created evicted : bool)
| RetInt (n : Z)
| RetUnit.
Arguments RetAdd {V} evicted.
Arguments RetGet {V} val ok evicted.
Arguments RetPeek {V} val ok stale.
Arguments RetGetOrCreate {V} val created evicted.
Arguments RetInt {V} n.
Arguments RetUnit {V}.

Section Cache.
Context {V : Type}.

(** [len(m)] for a map. *)
Definition len (m : gmap string V) : Z := Z.of_nat (size m).

Definition NewBoundedCache (maxItems : Z) : result (BoundedCache V) :=
  if maxItems <? 1 then Err "maxItems must be at least 1"
  else Ok {| staleItems := ∅;
             freshItems := ∅;
             maxItemMapLen := GoInt.quot (GoInt.add maxItems 1) 2 |}.

Definition MaxItems (b : BoundedCache V) : Z :=
  GoInt.mul (maxItemMapLen b) 2.

Definition Len (b : BoundedCache V) : Z :=
  GoInt.add (len (freshItems b)) (len (staleItems b)).

Definition Purge (b : BoundedCache V) : BoundedCache V :=
  {| staleItems := ∅; freshItems := ∅; maxItemMapLen := maxItemMapLen b |}.

(** The guard of [addLocked]: [len(b.freshItems) >= b.maxItemMapLen]. *)
Definition freshFull (b : BoundedCache V) : bool :=
  maxItemMapLen b <=? len (freshItems b).

Definition addLocked (key : string) (val : V) (b : BoundedCache V)
  : bool * BoundedCache V :=
  let '(evicted, b1) :=
    if freshFull b
    then (0 <? len (staleItems b),
          {| staleItems := freshItems b;
             freshItems := ∅;
             maxItemMapLen := maxItemMapLen b |})
    else (false, b) in
  (evicted,
   {| staleItems := staleItems b1;
      freshItems := <[key := val]> (freshItems b1);
      maxItemMapLen := maxItemMapLen b1 |}).

Definition Add (key : string) (val : V) (b : BoundedCache V)
  : bool * BoundedCache V :=
  addLocked key val b.

(** [delete(b.staleItems, key)] *)
Definition deleteStale (key : string) (b : BoundedCache V) : BoundedCache V :=
  {| staleItems := delete key (staleItems b);
     freshItems := freshItems b;
     maxItemMapLen := maxItemMapLen b |}.

Section WithZero.
(** The zero value of [V] ([var nilV V]). *)
Variable nilV : V.

Definition Get (key : string) (b : BoundedCache V)
  : (V * bool * bool) * BoundedCache V :=
  match freshItems b !! key with
  | Some val => ((val, true, false), b)
  | None =>
      match staleItems b !! key with
      | Some val =>
          let '(evicted, b') := addLocked key val (deleteStale key b) in
          ((val, true, evicted), b')
      | None => ((nilV, false, false), b)
      end
  end.

Definition Peek (key : string) (b : BoundedCache V) : V * bool * bool :=
  match freshItems b !! key with
  | Some val => (val, true, false)
  | None =>
      match staleItems b !! key with
      | Some val => (val, true, true)
      | None => (nilV, false, false)
      end
  end.
End WithZero.

Section WithWorld.
Context {E : Type}.

Definition GetOrCreate (key : string) (create : E -> V * E)
    (b : BoundedCache V) (e : E)
  : (V * bool * bool) * BoundedCache V * E :=
  match freshItems b !! key with
  | Some val => ((val, false, false), b, e)
  | None =>
      match staleItems b !! key with
      | Some val =>
          let '(evicted, b') := addLocked key val (deleteStale key b) in
          ((val, false, evicted), b', e)
      | None =>
          match freshItems b !! key with
          | Some val => ((val, false, false), b, e)
          | None =>
              let '(val, e') := create e in
              let '(evicted, b') := addLocked key val b in
              ((val, true, evicted), b', e')
          end
      end
  end.

Variable nilV : V.

(** One call of the public interface on a cache and the caller's world. *)
Definition step (o : op V E) (s : BoundedCache V * E)
  : ret V * (BoundedCache V * E) :=
  let '(b, e) := s in
  match o with
  | OpAdd key val =>
      let '(evicted, b') := Add key val b in (RetAdd evicted, (b', e))
  | OpGet key =>
      let '((val, ok, evicted), b') := Get nilV key b in
      (RetGet val ok evicted, (b', e))
  | OpPeek key =>
      let '(val, ok, stale) := Peek nilV key b in
      (RetPeek val ok stale, (b, e))
  | OpGetOrCreate key create =>
      let '((val, created, evicted), b', e') := GetOrCreate key create b e in
      (RetGetOrCreate val created evicted, (b', e'))
  | OpLen => (RetInt (Len b), (b, e))
  | OpMaxItems => (RetInt (MaxItems b), (b, e))
  | OpPurge => (RetUnit, (Purge b, e))
  end.

Fixpoint run (ops : list (op V E)) (s : BoundedCache V * E)
  : list (ret V) * (BoundedCache V * E) :=
  match ops with
  | [] => ([], s)
  | o :: ops' =>
      let '(r, s') := step o s in
      let '(rs, s'') := run ops' s' in
      (r :: rs, s'')
  end.
End WithWorld.
End Cache.

(** ** The older cache of [cache.go]

    Keys and values are [interface{}] there.  The embedding takes string keys
    (the key type of the type-parameterized cache) and an arbitrary value type
    [V] whose distinguished element [nilV] stands for [nil]: it is exact for
    calls whose keys are strings, and says nothing of keys of other dynamic
    types (a key not equal to itself, a key that cannot be hashed).
    [cache.go] has no [Peek]: [Legacy.step] has no result for it. *)

Module Legacy.

Record BoundedCache (V : Type) : Type := mkBoundedCache {
  staleItems : gmap string V;
  freshItems : gmap string V;
  maxItemMapLen : Z
}.
Arguments mkBoundedCache {V} _ _ _.
Arguments staleItems {V} _.
Arguments freshItems {V} _.
Arguments maxItemMapLen {V} _.

Section Cache.
Context {V : Type}.

Definition New (maxItems : Z) : result (BoundedCache V) :=
  if maxItems <? 2 then Err "maxItems must be at least 2"
  else Ok {| staleItems := ∅;
             freshItems := ∅;
             maxItemMapLen := GoInt.quot maxItems 2 |}.

Definition MaxItems (b : BoundedCache V) : Z :=
  GoInt.mul (maxItemMapLen b) 2.

Definition Len (b : BoundedCache V) : Z :=
  GoInt.add (len (freshItems b)) (len (staleItems b)).

Definition Purge (b : BoundedCache V) : BoundedCache V :=
  {| staleItems := ∅; freshItems := ∅; maxItemMapLen := maxItemMapLen b |}.

Definition addLocked (key : string) (val : V) (b : BoundedCache V)
  : bool * BoundedCache V :=
  let '(evicted, b1) :=
    if maxItemMapLen b <=? len (freshItems b)
    then (true,
          {| staleItems := freshItems b;
             freshItems := ∅;
             maxItemMapLen := maxItemMapLen b |})
    else (false, b) in
  (evicted,
   {| staleItems := staleItems b1;
      freshItems := <[key := val]> (freshItems b1);
      maxItemMapLen := maxItemMapLen b1 |}).

Definition Add (key : string) (val : V) (b : BoundedCache V)
  : bool * BoundedCache V :=
  addLocked key val b.

Definition deleteStale (key : string) (b : BoundedCache V)
  : BoundedCache V :=
  {| staleItems := delete key (staleItems b);
     freshItems := freshItems b;
     maxItemMapLen := maxItemMapLen b |}.

Context {E : Type}.

Definition GetOrCreate (key : string) (create : E -> V * E)
    (b : BoundedCache V) (e : E)
  : (V * bool * bool) * BoundedCache V * E :=
  match freshItems b !! key with
  | Some val => ((val, false, false), b, e)
  | None =>
      match staleItems b !! key with
      | Some val =>
          let '(evicted, b') := addLocked key val (deleteStale key b) in
          ((val, false, evicted), b', e)
      | None =>
          match freshItems b !! key with
          | Some val => ((val, false, false), b, e)
          | None =>
              let '(val, e') := create e in
              let '(evicted, b') := addLocked key val b in
              ((val, true, evicted), b', e')
          end
      end
  end.

Variable nilV : V.

Definition Get (key : string) (b : BoundedCache V)
  : (V * bool * bool) * BoundedCache V :=
  match freshItems b !! key with
  | Some val => ((val, true, false), b)
  | None =>
      match staleItems b !! key with
      | Some val =>
          let '(evicted, b') := addLocked key val (deleteStale key b) in
          ((val, true, evicted), b')
      | None => ((nilV, false, false), b)
      end
  end.

Definition step (o : op V E) (s : BoundedCache V * E)
  : option (ret V * (BoundedCache V * E)) :=
  let '(b, e) := s in
  match o with
  | OpAdd key val =>
      let '(evicted, b') := Add key val b in Some (RetAdd evicted, (b', e))
  | OpGet key =>
      let '((val, ok, evicted), b') := Get key b in
      Some (RetGet val ok evicted, (b', e))
  | OpPeek _ => None
  | OpGetOrCreate key create =>
      let '((val, created, evicted), b', e') := GetOrCreate key create b e in
      Some (RetGetOrCreate val created evicted, (b', e'))
  | OpLen => Some (RetInt (Len b), (b, e))
  | OpMaxItems => Some (RetInt (MaxItems b), (b, e))
  | OpPurge => Some (RetUnit, (Purge b, e))
  end.

Fixpoint run (ops : list (op V E)) (s : BoundedCache V * E)
  : option (list (ret V) * (BoundedCache V * E)) :=
  match ops with
  | [] => Some ([], s)
  | o :: ops' =>
      match step o s with
      | None => None
      | Some (r, s') =>
          match run ops' s' with
          | None => None
          | Some (rs, s'') => Some (r :: rs, s'')
          end
      end
  end.
End Cache.

End Legacy.

(** ** Notions used to state the properties *)

(** [ceil(n / 2)], with [/] and [mod] the floor division of [Z]. *)
Definition ceil_half (n : Z) : Z := n / 2 + n mod 2.

Section Notions.
Context {V : Type}.

(** The rotation protocol, in the words of the design: when [fresh] holds
    at least [halfCapacity] entries, [stale] is discarded and replaced by
    [fresh], [fresh] restarts empty, and [evicted] tells whether the
    discarded generation was non-empty; then the entry is written to
    [fresh]. *)
Definition insert_while_locked (key : string) (val : V) (b : BoundedCache V)
  : bool * BoundedCache V :=
  if bool_decide (maxItemMapLen b ≤ Z.of_nat (size (freshItems b)))
  then (bool_decide (dom (staleItems b) ≠ ∅),
        mkBoundedCache (freshItems b) {[ key := val ]} (maxItemMapLen b))
  else (false,
        mkBoundedCache (staleItems b) (<[key := val]> (freshItems b))
                       (maxItemMapLen b)).

(** No key lives in both generations. *)
Definition generations_disjoint (b : BoundedCache V) : Prop :=
  dom (freshItems b) ## dom (staleItems b).

(** The capacity bounds of the data model. *)
Definition within_bounds (b : BoundedCache V) : Prop :=
  len (freshItems b) ≤ maxItemMapLen b ∧
  len (staleItems b) ≤ maxItemMapLen b ∧
  len (freshItems b) + len (staleItems b) ≤ maxItemMapLen b * 2.

(** [fresh] never outgrows the half capacity, whatever its sign. *)
Definition fresh_bounded (b : BoundedCache V) : Prop :=
  len (freshItems b) ≤ Z.max (maxItemMapLen b) 1.

(** [n] successive calls [Add(key, val)]. *)
Fixpoint addTimes (n : nat) (key : string) (val : V) (b : BoundedCache V)
  : BoundedCache V :=
  match n with
  | O => b
  | S n' => addTimes n' key val (Add key val b).2
  end.

Section WithWorld.
Context {E : Type}.
Variable nilV : V.

(** States reached from [b0] by calls of the interface, each call allowed
    by [G] in the state it is made in. *)
Inductive reachable_if (G : BoundedCache V → op V E → Prop)
    (b0 : BoundedCache V) : BoundedCache V * E → Prop :=
| reachable_init e : reachable_if G b0 (b0, e)
| reachable_step o s :
    reachable_if G b0 s → G s.1 o → reachable_if G b0 (step nilV o s).2.

Definition reachable : BoundedCache V → BoundedCache V * E → Prop :=
  reachable_if (λ _ _, True).

(** An [Add] that cannot duplicate its key: the generation that will be
    the stale one after the call does not hold the key. *)
Definition add_keeps_apart (b : BoundedCache V) (o : op V E) : Prop :=
  match o with
  | OpAdd key _ =>
      (if freshFull b then freshItems b !! key else staleItems b !! key)
      = None
  | _ => True
  end.

(** Whether a call made on [b] rotates the generations: it reaches
    [addLocked] (an [Add]; a [Get] or [GetOrCreate] that misses [fresh] and
    hits [stale]; a [GetOrCreate] that misses both) and [addLocked] finds
    [fresh] full. *)
Definition rotates (o : op V E) (b : BoundedCache V) : bool :=
  match o with
  | OpAdd _ _ => freshFull b
  | OpGet key =>
      match freshItems b !! key with
      | Some _ => false
      | None =>
          match staleItems b !! key with
          | Some _ => freshFull (deleteStale key b)
          | None => false
          end
      end
  | OpGetOrCreate key _ =>
      match freshItems b !! key with
      | Some _ => false
      | None =>
          match staleItems b !! key with
          | Some _ => freshFull (deleteStale key b)
          | None => freshFull b
          end
      end
  | OpPeek _ | OpLen | OpMaxItems | OpPurge => false
  end.

(** A call that is neither a [Purge] nor a rotation. *)
Definition keeps_generations (b : BoundedCache V) (o : op V E) : Prop :=
  o ≠ OpPurge ∧ rotates o b = false.

(** A [create] function that also counts its invocations. *)
Definition counting (create : E → V * E) (w : E * nat) : V * (E * nat) :=
  let '(v, e') := create w.1 in (v, (e', S w.2)).

(** The older and the newer cache hold the same data. *)
Definition same_cache (bo : Legacy.BoundedCache V) (bn : BoundedCache V)
  : Prop :=
  Legacy.staleItems bo = staleItems bn ∧
  Legacy.freshItems bo = freshItems bn ∧
  Legacy.maxItemMapLen bo = maxItemMapLen bn.

(** Two results agree on everything but the eviction flag, where the
    newer cache reports an eviction only if the older one does. *)
Definition ret_agree (ro rn : ret V) : Prop :=
  match ro, rn with
  | RetAdd eo, RetAdd en => en = true → eo = true
  | RetGet vo oko eo, RetGet vn okn en =>
      vo = vn ∧ oko = okn ∧ (en = true → eo = true)
  | RetGetOrCreate vo co eo, RetGetOrCreate vn cn en =>
      vo = vn ∧ co = cn ∧ (en = true → eo = true)
  | RetInt no, RetInt nn => no = nn
  | RetUnit, RetUnit => True
  | _, _ => False
  end.
End WithWorld.
End Notions.

(** ** Notions for the further properties *)

Section Residence.
Context {V : Type}.

(** The value a look-up finds for [k]: [fresh] is consulted before [stale]. *)
Definition resident (b : BoundedCache V) (k : string) : option V :=
  match freshItems b !! k with
  | Some v => Some v
  | None => staleItems b !! k
  end.

(** The [evicted] result of a call; [false] for the calls that have none. *)
Definition evicted_of (r : ret V) : bool :=
  match r with
  | RetAdd e => e
  | RetGet _ _ e => e
  | RetGetOrCreate _ _ e => e
  | _ => false
  end.

(** The calls [Add(k, v)] for the entries of a list, in order. *)
Definition OpAdds {E : Type} (kvs : list (string * V)) : list (op V E) :=
  (λ kv, OpAdd kv.1 kv.2) <$> kvs.

(** The [created] result of a call; [false] for the calls that have none. *)
Definition created_of (r : ret V) : bool :=
  match r with
  | RetGetOrCreate _ c _ => c
  | _ => false
  end.

(** A call whose [create] function, if it has one, counts its invocations. *)
Definition counted {E : Type} (o : op V E) : op V (E * nat) :=
  match o with
  | OpAdd key val => OpAdd key val
  | OpGet key => OpGet key
  | OpPeek key => OpPeek key
  | OpGetOrCreate key create => OpGetOrCreate key (counting create)
  | OpLen => OpLen
  | OpMaxItems => OpMaxItems
  | OpPurge => OpPurge
  end.

(** The number of insertions the entry of [key] is sure to outlive: an entry
    of [fresh] leaves the cache at the second rotation from now, an entry of
    [stale] at the first; a rotation needs a full [fresh]. *)
Definition life (key : string) (b : BoundedCache V) : Z :=
  match freshItems b !! key with
  | Some _ => 2 * maxItemMapLen b - len (freshItems b)
  | None =>
      match staleItems b !! key with
      | Some _ => maxItemMapLen b - len (freshItems b)
      | None => -1
      end
  end.

(** The number of new keys the cache takes before an insertion discards a
    non-empty stale generation. *)
Definition room (b : BoundedCache V) : Z :=
  if 0 <? len (staleItems b)
  then maxItemMapLen b - len (freshItems b)
  else 2 * maxItemMapLen b - len (freshItems b).
End Residence.

(** * Properties *)

(** ** Arithmetic of [int] *)

Lemma wrap_in_range z : GoInt.in_range (GoInt.wrap z).
Proof.
  unfold GoInt.in_range, GoInt.wrap, GoInt.min_int, GoInt.max_int.
  pose proof (Z.mod_pos_bound (z + 2 ^ 63) (2 ^ 64)). lia.
Qed.

Lemma wrap_small z : GoInt.in_range z → GoInt.wrap z = z.
Proof.
  unfold GoInt.in_range, GoInt.wrap, GoInt.min_int, GoInt.max_int.
  intros Hz. rewrite Z.mod_small by lia. lia.
Qed.

Lemma ceil_half_least n : n ≤ 2 * ceil_half n < n + 2.
Proof.
  unfold ceil_half.
  pose proof (Z.div_mod n 2 ltac:(lia)).
  pose proof (Z.mod_pos_bound n 2 ltac:(lia)). lia.
Qed.

(** The half capacity computed by [NewBoundedCache], away from the top of
    the [int] range. *)
Lemma half_capacity_exact maxItems :
  1 ≤ maxItems < GoInt.max_int →
  GoInt.quot (GoInt.add maxItems 1) 2 = ceil_half maxItems.
Proof.
  intros Hm. unfold GoInt.quot, GoInt.add, GoInt.max_int in *.
  rewrite (wrap_small (maxItems + 1))
    by (unfold GoInt.in_range, GoInt.min_int, GoInt.max_int; lia).
  rewrite Z.quot_div_nonneg by lia.
  assert (Hc : (maxItems + 1) / 2 = ceil_half maxItems).
  { unfold ceil_half.
    pose proof (Z.div_mod maxItems 2 ltac:(lia)).
    pose proof (Z.mod_pos_bound maxItems 2 ltac:(lia)).
    symmetry. apply Z.div_unique with (r := 1 - maxItems mod 2); lia. }
  rewrite Hc. apply wrap_small.
  pose proof (ceil_half_least maxItems).
  unfold GoInt.in_range, GoInt.min_int, GoInt.max_int. lia.
Qed.

Lemma half_capacity_pos maxItems :
  1 ≤ maxItems < GoInt.max_int →
  1 ≤ GoInt.quot (GoInt.add maxItems 1) 2 < 2 ^ 62.
Proof.
  intros Hm. rewrite half_capacity_exact by done.
  pose proof (ceil_half_least maxItems). unfold GoInt.max_int in Hm. lia.
Qed.

(** ** Sizes of maps *)

Section MapFacts.
Context {V : Type}.
Implicit Types m : gmap string V.

Lemma len_nonneg m : 0 ≤ len m.
Proof. unfold len. lia. Qed.

Lemma len_empty : len (∅ : gmap string V) = 0.
Proof. unfold len. by rewrite map_size_empty. Qed.

Lemma len_singleton k (v : V) : len ({[ k := v ]} : gmap string V) = 1.
Proof. unfold len. by rewrite map_size_singleton. Qed.

Lemma len_pos_iff m : 0 < len m ↔ m ≠ ∅.
Proof.
  unfold len. rewrite <- map_size_non_empty_iff. lia.
Qed.

Lemma len_pos_dom m : (0 <? len m) = bool_decide (dom m ≠ ∅).
Proof.
  destruct (decide (dom m = ∅)) as [He|Hne].
  - rewrite bool_decide_eq_false_2 by (intros H; by apply H).
    apply dom_empty_iff_L in He. by rewrite He, len_empty.
  - rewrite bool_decide_eq_true_2 by done.
    apply Z.ltb_lt, len_pos_iff. by rewrite <- dom_empty_iff_L.
Qed.

Lemma len_insert_le k v m : len m ≤ len (<[k := v]> m) ≤ len m + 1.
Proof.
  unfold len. rewrite map_size_insert. destruct (m !! k); simpl; lia.
Qed.

Lemma len_insert_Some k v m :
  is_Some (m !! k) → len (<[k := v]> m) = len m.
Proof. intros H. unfold len. by rewrite map_size_insert_Some. Qed.

Lemma len_delete_le k m : len (delete k m) ≤ len m.
Proof.
  unfold len. rewrite map_size_delete. destruct (m !! k); simpl; lia.
Qed.

Lemma len_lookup_pos k v m : m !! k = Some v → 1 ≤ len m.
Proof.
  intros H. assert (m ≠ ∅) as Hne by (intros ->; by rewrite lookup_empty in H).
  apply len_pos_iff in Hne. lia.
Qed.

(** A one-entry map is the singleton of any entry it holds. *)
Lemma len_one_singleton k v m :
  len m = 1 → m !! k = Some v → m = {[ k := v ]}.
Proof.
  intros Hlen Hk.
  assert (Hd : delete k m = ∅).
  { apply map_size_empty_iff.
    unfold len in Hlen. rewrite map_size_delete, Hk. simpl. lia. }
  rewrite <- (insert_id m k v Hk), <- insert_delete_eq, Hd.
  by rewrite insert_empty.
Qed.
End MapFacts.

(** ** The rotation protocol *)

Section Rotation.
Context {V : Type}.
Implicit Types b : BoundedCache V.

Lemma freshFull_true b :
  freshFull b = true ↔ maxItemMapLen b ≤ len (freshItems b).
Proof. unfold freshFull. apply Z.leb_le. Qed.

Lemma freshFull_false b :
  freshFull b = false ↔ len (freshItems b) < maxItemMapLen b.
Proof. unfold freshFull. apply Z.leb_gt. Qed.

Lemma addLocked_rotate key val b :
  freshFull b = true →
  addLocked key val b =
    (0 <? len (staleItems b),
     mkBoundedCache (freshItems b) {[ key := val ]} (maxItemMapLen b)).
Proof.
  intros Hf. unfold addLocked. rewrite Hf. simpl. by rewrite insert_empty.
Qed.

Lemma addLocked_keep key val b :
  freshFull b = false →
  addLocked key val b =
    (false,
     mkBoundedCache (staleItems b) (<[key := val]> (freshItems b))
                    (maxItemMapLen b)).
Proof. intros Hf. unfold addLocked. by rewrite Hf. Qed.

Lemma addLocked_protocol key val b :
  addLocked key val b = insert_while_locked key val b.
Proof.
  unfold insert_while_locked. fold (len (freshItems b)).
  destruct (freshFull b) eqn:Hf.
  - rewrite addLocked_rotate by done.
    rewrite bool_decide_eq_true_2 by (by apply freshFull_true).
    by rewrite len_pos_dom.
  - rewrite addLocked_keep by done.
    rewrite bool_decide_eq_false_2; [done|].
    apply freshFull_false in Hf. lia.
Qed.

Lemma addLocked_maxItemMapLen key val b :
  maxItemMapLen (addLocked key val b).2 = maxItemMapLen b.
Proof. unfold addLocked. by destruct (freshFull b). Qed.

Lemma addLocked_fresh_lookup key val b :
  freshItems (addLocked key val b).2 !! key = Some val.
Proof.
  unfold addLocked. destruct (freshFull b); simpl; apply lookup_insert_eq.
Qed.
End Rotation.

(** C1. [addLocked] is the rotation protocol: when [fresh] holds at least
    [maxItemMapLen] entries, [stale] becomes the current [fresh], [fresh]
    restarts empty and [evicted] tells whether the previous [stale] was
    non-empty; then [key -> val] is written to [fresh] and [evicted] is
    returned.  Hence [Add] returns [true] exactly when its insertion
    discarded a non-empty stale generation. *)
Theorem addLocked_rotation_protocol {V : Type} (key : string) (val : V)
    (b : BoundedCache V) :
  addLocked key val b = insert_while_locked key val b ∧
  ((Add key val b).1 = true ↔
   (maxItemMapLen b ≤ len (freshItems b) ∧ staleItems b ≠ ∅)).
Proof.
  split; [apply addLocked_protocol|].
  unfold Add. destruct (freshFull b) eqn:Hf.
  - rewrite addLocked_rotate by done. simpl.
    rewrite Z.ltb_lt, len_pos_iff. apply freshFull_true in Hf. tauto.
  - rewrite addLocked_keep by done. simpl.
    apply freshFull_false in Hf. split; [done|]. lia.
Qed.

(** ** Construction *)

Lemma NewBoundedCache_Ok {V : Type} maxItems :
  1 ≤ maxItems →
  NewBoundedCache (V := V) maxItems =
    Ok (mkBoundedCache ∅ ∅ (GoInt.quot (GoInt.add maxItems 1) 2)).
Proof.
  intros Hm. unfold NewBoundedCache.
  destruct (maxItems <? 1) eqn:Hlt; [apply Z.ltb_lt in Hlt; lia|done].
Qed.

(** C5, amended. Construction fails exactly when [maxItems < 1]; for every
    [maxItems >= 1] it returns a cache with two empty generations; and for
    [1 <= maxItems < 2^63 - 1] the capacity [MaxItems()] is
    [2 * ceil(maxItems / 2)], the least even number not below [maxItems]. *)
Theorem NewBoundedCache_capacity {V : Type} (maxItems : Z) :
  (maxItems < 1 ↔ ∃ msg, NewBoundedCache (V := V) maxItems = Err msg) ∧
  (1 ≤ maxItems →
   ∃ b : BoundedCache V, NewBoundedCache maxItems = Ok b ∧
     staleItems b = ∅ ∧ freshItems b = ∅ ∧ Len b = 0) ∧
  (1 ≤ maxItems < GoInt.max_int →
   ∃ b : BoundedCache V, NewBoundedCache maxItems = Ok b ∧
     MaxItems b = 2 * ceil_half maxItems ∧
     maxItems ≤ MaxItems b < maxItems + 2).
Proof.
  split; [|split].
  - unfold NewBoundedCache. destruct (maxItems <? 1) eqn:Hlt.
    + apply Z.ltb_lt in Hlt. split; [eauto|done].
    + apply Z.ltb_ge in Hlt. split; [lia|]. intros [msg Hmsg]. discriminate.
  - intros Hm. eexists. split; [by apply NewBoundedCache_Ok|].
    simpl. split; [done|]. split; [done|]. reflexivity.
  - intros Hm. eexists. split; [apply NewBoundedCache_Ok; lia|].
    unfold MaxItems. simpl. rewrite half_capacity_exact by done.
    pose proof (ceil_half_least maxItems) as Hc.
    unfold GoInt.mul. rewrite wrap_small.
    + lia.
    + unfold GoInt.in_range, GoInt.min_int, GoInt.max_int in *. lia.
Qed.

Lemma NewBoundedCache_capacity_witness :
  1 ≤ 3 < GoInt.max_int ∧
  ∃ b : BoundedCache nat, NewBoundedCache 3 = Ok b ∧
    MaxItems b = 2 * ceil_half 3 ∧ 3 ≤ MaxItems b < 3 + 2.
Proof.
  assert (H : 1 ≤ 3 < GoInt.max_int) by (unfold GoInt.max_int; lia).
  split; [exact H|].
  exact (proj2 (proj2 (NewBoundedCache_capacity (V := nat) 3)) H).
Defined.

(** C5 as stated fails at the largest [int]: [maxItems + 1] wraps to the
    smallest [int], the half capacity is [-2^62] and [MaxItems()] is
    [-2^63]. *)
Lemma NewBoundedCache_capacity_overflow :
  1 ≤ GoInt.max_int ∧
  ∃ b : BoundedCache nat, NewBoundedCache GoInt.max_int = Ok b ∧
    maxItemMapLen b = - 2 ^ 62 ∧
    MaxItems b = - 2 ^ 63 ∧
    MaxItems b ≠ 2 * ceil_half GoInt.max_int.
Proof.
  split; [by vm_compute|].
  eexists. split; [reflexivity|]. by vm_compute.
Qed.

(** The capacities named in the tests and the design. *)
Example NewBoundedCache_examples :
  MaxItems <$> [mkBoundedCache (V := nat) ∅ ∅ (GoInt.quot (GoInt.add 1 1) 2);
                mkBoundedCache ∅ ∅ (GoInt.quot (GoInt.add 3 1) 2);
                mkBoundedCache ∅ ∅ (GoInt.quot (GoInt.add 100 1) 2)]
  = [2; 4; 100] ∧
  NewBoundedCache (V := nat) 0 = Err "maxItems must be at least 1" ∧
  NewBoundedCache (V := nat) (-1) = Err "maxItems must be at least 1".
Proof. by vm_compute. Qed.

(** ** Look-ups *)

Section Lookups.
Context {V : Type}.
Implicit Types b : BoundedCache V.

(** Promotion of a stale entry: what [Get] and [GetOrCreate] do after a
    hit in [staleItems]. *)
Lemma promote_spec key v b :
  freshItems b !! key = None →
  ∃ evicted b',
    addLocked key v (deleteStale key b) = (evicted, b') ∧
    insert_while_locked key v (deleteStale key b) = (evicted, b') ∧
    freshItems b' !! key = Some v ∧
    staleItems b' !! key = None ∧
    maxItemMapLen b' = maxItemMapLen b.
Proof.
  intros Hf.
  destruct (addLocked key v (deleteStale key b)) as [evicted b'] eqn:Ha.
  exists evicted, b'. split; [done|]. split.
  { by rewrite <- addLocked_protocol. }
  pose proof (addLocked_fresh_lookup key v (deleteStale key b)) as Hl.
  pose proof (addLocked_maxItemMapLen key v (deleteStale key b)) as Hm.
  rewrite Ha in Hl, Hm. simpl in Hl, Hm. split; [done|]. split; [|done].
  destruct (freshFull (deleteStale key b)) eqn:Hfull.
  - rewrite addLocked_rotate in Ha by done. by simplify_eq.
  - rewrite addLocked_keep in Ha by done. simplify_eq. simpl.
    apply lookup_delete_eq.
Qed.
End Lookups.

(** C4. [Get]: a key in [fresh] is returned with [found = true],
    [evicted = false] and the cache is unchanged; a key absent from [fresh]
    and present in [stale] is removed from [stale], inserted into [fresh] by
    the rotation protocol, and returned with [found = true] and the flag the
    insertion reported; a key absent from both gives [found = false] and an
    unchanged cache. *)
Theorem Get_behaviour {V : Type} (nilV : V) (key : string)
    (b : BoundedCache V) :
  (∀ v, freshItems b !! key = Some v →
        Get nilV key b = ((v, true, false), b)) ∧
  (∀ v, freshItems b !! key = None → staleItems b !! key = Some v →
        ∃ evicted b',
          insert_while_locked key v (deleteStale key b) = (evicted, b') ∧
          Get nilV key b = ((v, true, evicted), b') ∧
          freshItems b' !! key = Some v ∧ staleItems b' !! key = None) ∧
  (freshItems b !! key = None → staleItems b !! key = None →
        ∃ v, Get nilV key b = ((v, false, false), b)).
Proof.
  unfold Get. repeat split.
  - intros v Hf. by rewrite Hf.
  - intros v Hf Hs. rewrite Hf, Hs.
    destruct (promote_spec key v b Hf) as (ev & b' & Ha & Hp & Hl & Hn & _).
    exists ev, b'. by rewrite Ha.
  - intros Hf Hs. rewrite Hf, Hs. eauto.
Qed.

Lemma Get_behaviour_witness :
  let b := mkBoundedCache (V := nat) {[ "a" := 1%nat; "c" := 3%nat ]}
                          {[ "b" := 2%nat ]} 1 in
  freshItems b !! "a" = None ∧ staleItems b !! "a" = Some 1%nat ∧
  ∃ evicted b',
    insert_while_locked "a" 1%nat (deleteStale "a" b) = (evicted, b') ∧
    Get 0%nat "a" b = ((1%nat, true, evicted), b') ∧
    freshItems b' !! "a" = Some 1%nat ∧ staleItems b' !! "a" = None.
Proof.
  intros b. split; [reflexivity|]. split; [reflexivity|].
  exact (proj1 (proj2 (Get_behaviour 0%nat "a" b)) 1%nat eq_refl eq_refl).
Defined.

(** The promotion of the test scenario in miniature: the stale hit rotates
    a full [fresh] and reports the eviction of the other stale entry. *)
Example Get_promotes_and_evicts :
  Get 0%nat "a" (mkBoundedCache {[ "a" := 1%nat; "c" := 3%nat ]}
                                {[ "b" := 2%nat ]} 1)
  = ((1%nat, true, true),
     mkBoundedCache {[ "b" := 2%nat ]} {[ "a" := 1%nat ]} 1).
Proof. by vm_compute. Qed.

(** C9. [Peek] leaves the cache (and the caller's world) as they are, and
    reports presence: a key in [fresh] gives its value with [found = true]
    and [stale = false]; a key only in [stale] gives its value with
    [found = true] and [stale = true]; an absent key gives [found = false].
    For a key that is found, [stale] is [false] exactly when the key is in
    [fresh]. *)
Theorem Peek_read_only {V E : Type} (nilV : V) (key : string)
    (b : BoundedCache V) (e : E) :
  (step nilV (OpPeek key) (b, e)).2 = (b, e) ∧
  (∀ v, freshItems b !! key = Some v → Peek nilV key b = (v, true, false)) ∧
  (∀ v, freshItems b !! key = None → staleItems b !! key = Some v →
        Peek nilV key b = (v, true, true)) ∧
  (freshItems b !! key = None → staleItems b !! key = None →
        (Peek nilV key b).1.2 = false) ∧
  ((Peek nilV key b).1.2 = true →
        ((Peek nilV key b).2 = false ↔ is_Some (freshItems b !! key))).
Proof.
  repeat split.
  - simpl. by destruct (Peek nilV key b) as [[? ?] ?].
  - intros v Hf. unfold Peek. by rewrite Hf.
  - intros v Hf Hs. unfold Peek. by rewrite Hf, Hs.
  - intros Hf Hs. unfold Peek. by rewrite Hf, Hs.
  - unfold Peek in *.
    destruct (freshItems b !! key); [eauto|].
    destruct (staleItems b !! key); simpl in *; discriminate.
  - unfold Peek in *. intros [v Hv]. by rewrite Hv.
Qed.

Lemma Peek_read_only_witness :
  let b := mkBoundedCache (V := nat) {[ "a" := 1%nat ]} {[ "b" := 2%nat ]} 1 in
  (freshItems b !! "a" = None ∧ staleItems b !! "a" = Some 1%nat ∧
   Peek 0%nat "a" b = (1%nat, true, true)) ∧
  (freshItems b !! "b" = Some 2%nat ∧ Peek 0%nat "b" b = (2%nat, true, false)).
Proof.
  intros b. split.
  - split; [reflexivity|]. split; [reflexivity|].
    exact (proj1 (proj2 (proj2 (Peek_read_only (E := unit) 0%nat "a" b tt)))
             1%nat eq_refl eq_refl).
  - split; [reflexivity|].
    exact (proj1 (proj2 (Peek_read_only (E := unit) 0%nat "b" b tt))
             2%nat eq_refl).
Defined.

(** ** The state a call leaves behind *)

Section Steps.
Context {V E : Type}.
Variable nilV : V.
Implicit Types b : BoundedCache V.
Implicit Types o : op V E.

(** A call writes the cache in one of four ways: not at all, by [addLocked]
    on the cache as it is, by [addLocked] after the removal of a stale
    entry, or by [Purge]. *)
Lemma step_state o b e :
  let b' := (step nilV o (b, e)).2.1 in
  match o with
  | OpAdd key val => b' = (addLocked key val b).2
  | OpGet key =>
      b' = b ∨
      ∃ val, freshItems b !! key = None ∧ staleItems b !! key = Some val ∧
             b' = (addLocked key val (deleteStale key b)).2
  | OpGetOrCreate key create =>
      b' = b ∨
      (∃ val, freshItems b !! key = None ∧ staleItems b !! key = Some val ∧
              b' = (addLocked key val (deleteStale key b)).2) ∨
      (freshItems b !! key = None ∧ staleItems b !! key = None ∧
       b' = (addLocked key (create e).1 b).2)
  | OpPurge => b' = Purge b
  | OpPeek _ | OpLen | OpMaxItems => b' = b
  end.
Proof.
  destruct o as [key val|key|key|key create| | |]; simpl.
  - unfold Add. by destruct (addLocked key val b).
  - unfold Get. destruct (freshItems b !! key) as [v|] eqn:Hf; [by left|].
    destruct (staleItems b !! key) as [v|] eqn:Hs; [|by left].
    right. exists v.
    by destruct (addLocked key v (deleteStale key b)).
  - by destruct (Peek nilV key b) as [[? ?] ?].
  - unfold GetOrCreate.
    destruct (freshItems b !! key) as [v|] eqn:Hf; [by left|].
    destruct (staleItems b !! key) as [v|] eqn:Hs.
    + right; left. exists v.
      by destruct (addLocked key v (deleteStale key b)).
    + right; right. destruct (create e) as [v e']. simpl.
      by destruct (addLocked key v b).
  - done.
  - done.
  - done.
Qed.

Lemma step_maxItemMapLen o b e :
  maxItemMapLen (step nilV o (b, e)).2.1 = maxItemMapLen b.
Proof.
  pose proof (step_state o b e) as H. cbv zeta in H.
  revert H. generalize ((step nilV o (b, e)).2.1). intros b' H.
  destruct o;
    repeat match goal with
      | H : _ ∨ _ |- _ => destruct H as [H|H]
      | H : ∃ _, _ |- _ => destruct H as (? & ? & ? & H)
      | H : _ ∧ _ |- _ => destruct H as (? & ? & H)
      end;
    rewrite H; try done; by rewrite addLocked_maxItemMapLen.
Qed.

Lemma reachable_maxItemMapLen G b0 (s : BoundedCache V * E) :
  reachable_if nilV G b0 s → maxItemMapLen s.1 = maxItemMapLen b0.
Proof.
  induction 1 as [e|o [b e] Hr IH HG]; [done|].
  simpl in IH. by rewrite step_maxItemMapLen.
Qed.

Lemma reachable_if_weaken (G G' : BoundedCache V → op V E → Prop) b0 s :
  (∀ b o, G b o → G' b o) →
  reachable_if nilV G b0 s → reachable_if nilV G' b0 s.
Proof.
  intros HG. induction 1; [constructor|]. constructor; auto.
Qed.

(** The states of a [run] are reachable. *)
Lemma run_reachable (ops : list (op V E)) b0 (s : BoundedCache V * E) :
  reachable nilV b0 s → reachable nilV b0 (run nilV ops s).2.
Proof.
  revert s. induction ops as [|o ops IH]; intros s Hs; [done|].
  simpl. destruct (step nilV o s) as [r s'] eqn:Hstep.
  specialize (IH s'). destruct (run nilV ops s') as [rs s''].
  simpl in *. apply IH.
  replace s' with (step nilV o s).2 by (by rewrite Hstep).
  by constructor.
Qed.
End Steps.

(** C6. One call [GetOrCreate(key, create)]: a key in [fresh] is returned
    with [created = false]; a key only in [stale] is promoted as in [Get] and
    returned with [created = false]; in both cases [create] is not invoked
    (the caller's world is unchanged).  A key absent from both generations
    has [create] invoked once, its result inserted by the rotation protocol
    and returned with [created = true].  With a counting [create], the
    counter moves by at most one, and by one exactly when [created = true],
    which is exactly when the key is absent from both generations. *)
Theorem GetOrCreate_behaviour {V E : Type} (key : string)
    (create : E → V * E) (b : BoundedCache V) (e : E) :
  (∀ v, freshItems b !! key = Some v →
        GetOrCreate key create b e = ((v, false, false), b, e)) ∧
  (∀ v, freshItems b !! key = None → staleItems b !! key = Some v →
        ∃ evicted b',
          insert_while_locked key v (deleteStale key b) = (evicted, b') ∧
          GetOrCreate key create b e = ((v, false, evicted), b', e) ∧
          freshItems b' !! key = Some v ∧ staleItems b' !! key = None) ∧
  (freshItems b !! key = None → staleItems b !! key = None →
        ∃ evicted b',
          insert_while_locked key (create e).1 b = (evicted, b') ∧
          GetOrCreate key create b e
            = (((create e).1, true, evicted), b', (create e).2)) ∧
  (∀ n : nat,
     let r := GetOrCreate key (counting create) b (e, n) in
     (r.2.2 = n ∨ r.2.2 = S n) ∧
     (r.2.2 = S n ↔ r.1.1.1.2 = true) ∧
     (r.1.1.1.2 = true ↔
      freshItems b !! key = None ∧ staleItems b !! key = None)).
Proof.
  unfold GetOrCreate. split; [|split; [|split]].
  - intros v Hf. by rewrite Hf.
  - intros v Hf Hs. rewrite Hf, Hs.
    destruct (promote_spec key v b Hf) as (ev & b' & Ha & Hp & Hl & Hn & _).
    exists ev, b'. by rewrite Ha.
  - intros Hf Hs. rewrite Hf, Hs.
    destruct (create e) as [v e']. simpl.
    destruct (addLocked key v b) as [ev b'] eqn:Ha.
    exists ev, b'. split; [|done]. by rewrite <- addLocked_protocol.
  - intros n.
    destruct (freshItems b !! key) as [v|] eqn:Hf; simpl.
    { repeat split; try (by left); try done; try lia. by intros [? _]. }
    destruct (staleItems b !! key) as [v|] eqn:Hs; simpl.
    { destruct (addLocked key v (deleteStale key b)) as [ev b']. simpl.
      repeat split; try (by left); try done; try lia. by intros [_ ?]. }
    unfold counting. simpl. destruct (create e) as [v e'].
    destruct (addLocked key v b) as [ev b']. simpl.
    repeat split; try (by right); done.
Qed.

Lemma GetOrCreate_behaviour_witness :
  let b := mkBoundedCache (V := nat) {[ "a" := 1%nat ]} {[ "b" := 2%nat ]} 1 in
  let create := λ n : nat, (7%nat, S n) in
  freshItems b !! "c" = None ∧ staleItems b !! "c" = None ∧
  ∃ evicted b',
    insert_while_locked "c" (create 0%nat).1 b = (evicted, b') ∧
    GetOrCreate "c" create b 0%nat
      = (((create 0%nat).1, true, evicted), b', (create 0%nat).2).
Proof.
  intros b create. split; [reflexivity|]. split; [reflexivity|].
  exact (proj1 (proj2 (proj2 (GetOrCreate_behaviour "c" create b 0%nat)))
           eq_refl eq_refl).
Defined.

(** A miss creates, rotates the full [fresh] and evicts the stale entry; a
    second call for the same key finds it and does not invoke [create]. *)
Example GetOrCreate_creates_once :
  let b := mkBoundedCache (V := nat) {[ "a" := 1%nat ]} {[ "b" := 2%nat ]} 1 in
  let create := λ n : nat, (7%nat, S n) in
  GetOrCreate "c" create b 0%nat
    = ((7%nat, true, true),
       mkBoundedCache {[ "b" := 2%nat ]} {[ "c" := 7%nat ]} 1, 1%nat) ∧
  GetOrCreate "c" create (GetOrCreate "c" create b 0%nat).1.2 1%nat
    = ((7%nat, false, false),
       mkBoundedCache {[ "b" := 2%nat ]} {[ "c" := 7%nat ]} 1, 1%nat).
Proof. by vm_compute. Qed.

(** ** A key held by both generations *)

Section Shadowing.
Context {V E : Type}.
Variable nilV : V.
Implicit Types b : BoundedCache V.

Lemma deleteStale_freshFull key b :
  freshFull (deleteStale key b) = freshFull b.
Proof. done. Qed.

(** A call that neither rotates nor purges keeps an entry of [stale] whose
    key is also in [fresh], and keeps the key in [fresh]. *)
Lemma step_keeps_shadowed key (vs : V) (o : op V E) b e :
  keeps_generations b o →
  staleItems b !! key = Some vs → is_Some (freshItems b !! key) →
  let b' := (step nilV o (b, e)).2.1 in
  staleItems b' !! key = Some vs ∧ is_Some (freshItems b' !! key).
Proof.
  intros [Hp Hrot] Hs Hf.
  pose proof (step_state nilV o b e) as H. cbv zeta in H |- *.
  revert H. generalize ((step nilV o (b, e)).2.1). intros b' H.
  assert (Hadd : ∀ k v, freshFull b = false →
            staleItems (addLocked k v b).2 !! key = Some vs ∧
            is_Some (freshItems (addLocked k v b).2 !! key)).
  { intros k v Hfull. rewrite addLocked_keep by done. simpl. split; [done|].
    rewrite lookup_insert_is_Some. destruct (decide (k = key)); auto. }
  assert (Hpro : ∀ k v, freshFull b = false → freshItems b !! k = None →
            staleItems (addLocked k v (deleteStale k b)).2 !! key = Some vs ∧
            is_Some (freshItems (addLocked k v (deleteStale k b)).2 !! key)).
  { intros k v Hfull Hk.
    assert (k ≠ key) by (intros ->; rewrite Hk in Hf; by destruct Hf).
    rewrite addLocked_keep by done. simpl. split.
    - by rewrite lookup_delete_ne.
    - rewrite lookup_insert_is_Some. auto. }
  destruct o as [k v|k|k|k create| | |]; cbv beta iota in H; simpl in Hrot.
  - rewrite H. by apply Hadd.
  - destruct H as [->|(v & Hk & Hsk & ->)]; [done|].
    rewrite Hk, Hsk in Hrot. by apply Hpro.
  - by rewrite H.
  - destruct H as [->|[(v & Hk & Hsk & ->)|(Hk & Hsk & ->)]]; [done| |].
    + rewrite Hk, Hsk in Hrot. by apply Hpro.
    + rewrite Hk, Hsk in Hrot. by apply Hadd.
  - by rewrite H.
  - by rewrite H.
  - by destruct Hp.
Qed.

(** A rotation replaces the generation [stale] by the generation [fresh] of
    before the call. *)
Lemma step_rotates_stale (o : op V E) b e :
  rotates o b = true →
  staleItems (step nilV o (b, e)).2.1 = freshItems b.
Proof.
  intros Hrot.
  destruct o as [k v|k|k|k create| | |]; simpl in Hrot |- *; try done.
  - unfold Add. by rewrite (addLocked_rotate k v b Hrot).
  - unfold Get. destruct (freshItems b !! k) as [w|]; [done|].
    destruct (staleItems b !! k) as [w|]; [|done].
    by rewrite (addLocked_rotate k w (deleteStale k b) Hrot).
  - unfold GetOrCreate. destruct (freshItems b !! k) as [w|]; [done|].
    destruct (staleItems b !! k) as [w|].
    + by rewrite (addLocked_rotate k w (deleteStale k b) Hrot).
    + destruct (create e) as [w e'].
      by rewrite (addLocked_rotate k w b Hrot).
Qed.
End Shadowing.

(** C10. Look-ups consult [fresh] first: for a key held by both generations,
    [Peek] and [Get] return the value of [fresh], [Peek] reports
    [stale = false], and [Get] leaves the cache as it is; the entry of
    [stale] stays in place through every sequence of calls none of which is
    a rotation or a [Purge], whether [fresh] is full or not.  The first call
    that rotates puts the entry of [fresh] in its place, and [Purge] removes
    it. *)
Theorem fresh_shadows_stale {V E : Type} (nilV : V) (key : string)
    (vf vs : V) (b : BoundedCache V) :
  freshItems b !! key = Some vf → staleItems b !! key = Some vs →
  Peek nilV key b = (vf, true, false) ∧
  Get nilV key b = ((vf, true, false), b) ∧
  (∀ s : BoundedCache V * E,
     reachable_if nilV keeps_generations b s →
     staleItems s.1 !! key = Some vs ∧ is_Some (freshItems s.1 !! key)) ∧
  (∀ (o : op V E) (e : E),
     rotates o b = true →
     staleItems (step nilV o (b, e)).2.1 !! key = Some vf) ∧
  staleItems (Purge b) !! key = None.
Proof.
  intros Hf Hs. split; [|split; [|split; [|split]]].
  - unfold Peek. by rewrite Hf.
  - unfold Get. by rewrite Hf.
  - induction 1 as [e|o [b1 e] Hr [IHs IHf] HG]; [by eauto|].
    simpl in *. by apply step_keeps_shadowed.
  - intros o e Hrot. by rewrite step_rotates_stale.
  - simpl. apply lookup_empty.
Qed.

Lemma fresh_shadows_stale_witness :
  let b := mkBoundedCache (V := nat) {[ "a" := 1%nat ]} {[ "a" := 4%nat ]} 1 in
  let s1 := (step (E := unit) 0%nat (OpGet "a") (b, tt)).2 in
  let s2 := (step 0%nat (OpGet "z") s1).2 in
  let s3 := (step 0%nat (OpPeek "a") s2).2 in
  let s4 := (step 0%nat OpLen s3).2 in
  (freshItems b !! "a" = Some 4%nat ∧ staleItems b !! "a" = Some 1%nat) ∧
  freshFull b = true ∧
  Peek 0%nat "a" b = (4%nat, true, false) ∧
  Get 0%nat "a" b = ((4%nat, true, false), b) ∧
  staleItems s4.1 !! "a" = Some 1%nat ∧
  staleItems (step (E := unit) 0%nat (OpAdd "c" 3%nat) (b, tt)).2.1 !! "a"
    = Some 4%nat.
Proof.
  intros b s1 s2 s3 s4.
  pose proof (fresh_shadows_stale (E := unit) 0%nat "a" 4%nat 1%nat b
                eq_refl eq_refl) as (HP & HG & HR & HT & _).
  split; [split; reflexivity|]. split; [reflexivity|].
  split; [exact HP|]. split; [exact HG|]. split.
  - refine (proj1 (HR s4 _)).
    apply reachable_step; [|split; [discriminate|reflexivity]].
    apply reachable_step; [|split; [discriminate|reflexivity]].
    apply reachable_step; [|split; [discriminate|reflexivity]].
    apply reachable_step; [|split; [discriminate|reflexivity]].
    apply reachable_init.
  - exact (HT (OpAdd "c" 3%nat) tt eq_refl).
Defined.

(** ** Invariants of the reachable states *)

Section Invariants.
Context {V E : Type}.
Variable nilV : V.
Implicit Types b : BoundedCache V.
Implicit Types o : op V E.

(** Any property kept by [addLocked] (under the side condition [G] of an
    [Add]), by the removal of a stale entry and by [Purge] is kept by every
    call. *)
Lemma step_preserves (P : BoundedCache V → Prop)
    (G : BoundedCache V → op V E → Prop) :
  (∀ key val b, P b → G b (OpAdd key val) → P (addLocked key val b).2) →
  (∀ key val b, P b →
     freshItems b !! key = None → staleItems b !! key = None →
     P (addLocked key val b).2) →
  (∀ key val b, P b →
     freshItems b !! key = None → staleItems b !! key = Some val →
     P (addLocked key val (deleteStale key b)).2) →
  (∀ b, P b → P (Purge b)) →
  ∀ o b e, P b → G b o → P (step nilV o (b, e)).2.1.
Proof.
  intros Hadd Hcreate Hpromote Hpurge o b e HP HG.
  pose proof (step_state nilV o b e) as H. cbv zeta in H.
  revert H. generalize ((step nilV o (b, e)).2.1). intros b' H.
  destruct o as [k v|k|k|k create| | |]; cbv beta iota in H.
  - rewrite H. by apply Hadd.
  - destruct H as [->|(v & Hf & Hs & ->)]; [done|]. by apply Hpromote.
  - by rewrite H.
  - destruct H as [->|[(v & Hf & Hs & ->)|(Hf & Hs & ->)]]; [done| |].
    + by apply Hpromote.
    + by apply Hcreate.
  - by rewrite H.
  - by rewrite H.
  - rewrite H. by apply Hpurge.
Qed.

Lemma reachable_preserves (P : BoundedCache V → Prop)
    (G : BoundedCache V → op V E → Prop) b0 s :
  (∀ o b e, P b → G b o → P (step nilV o (b, e)).2.1) →
  P b0 → reachable_if nilV G b0 s → P s.1.
Proof.
  intros Hstep H0. induction 1 as [e|o [b e] Hr IH HG]; [done|].
  by apply Hstep.
Qed.

(** *** Capacity bounds *)

Lemma addLocked_within_bounds key val b :
  1 ≤ maxItemMapLen b → within_bounds b →
  within_bounds (addLocked key val b).2.
Proof.
  intros Hh (Hf & Hs & _). unfold within_bounds.
  destruct (freshFull b) eqn:Hfull.
  - rewrite addLocked_rotate by done. simpl. rewrite len_singleton. lia.
  - rewrite addLocked_keep by done. simpl.
    apply freshFull_false in Hfull.
    pose proof (len_insert_le key val (freshItems b)). lia.
Qed.

Lemma deleteStale_within_bounds key b :
  within_bounds b → within_bounds (deleteStale key b).
Proof.
  intros (Hf & Hs & Hsum). unfold within_bounds. simpl.
  pose proof (len_delete_le key (staleItems b)). lia.
Qed.

Lemma step_within_bounds o b e :
  1 ≤ maxItemMapLen b → within_bounds b →
  within_bounds (step nilV o (b, e)).2.1.
Proof.
  intros Hh Hb.
  apply (step_preserves (λ b, 1 ≤ maxItemMapLen b ∧ within_bounds b)
           (λ _ _, True)); try done.
  - intros k v b1 [? ?] _.
    rewrite addLocked_maxItemMapLen. split; [done|].
    by apply addLocked_within_bounds.
  - intros k v b1 [? ?] _ _.
    rewrite addLocked_maxItemMapLen. split; [done|].
    by apply addLocked_within_bounds.
  - intros k v b1 [? ?] _ _.
    rewrite addLocked_maxItemMapLen. split; [done|].
    apply addLocked_within_bounds; [done|].
    by apply deleteStale_within_bounds.
  - intros b1 [? ?]. split; [done|]. unfold within_bounds, Purge. simpl.
    rewrite len_empty. lia.
Qed.

(** Away from the top of the [int] range the bounds of the data model hold
    in every reachable state. *)
Lemma reachable_within_bounds maxItems b0 (s : BoundedCache V * E) :
  1 ≤ maxItems < GoInt.max_int →
  NewBoundedCache maxItems = Ok b0 →
  reachable nilV b0 s →
  within_bounds s.1 ∧ Len s.1 = len (freshItems s.1) + len (staleItems s.1).
Proof.
  intros Hm Hnew Hr.
  rewrite NewBoundedCache_Ok in Hnew by lia. injection Hnew as <-.
  pose proof (half_capacity_pos maxItems Hm) as Hh.
  pose proof (reachable_maxItemMapLen nilV _ _ _ Hr) as Hlen. simpl in Hlen.
  assert (Hb : 1 ≤ maxItemMapLen s.1 ∧ within_bounds s.1).
  { apply (reachable_preserves
             (λ b, 1 ≤ maxItemMapLen b ∧ within_bounds b)) in Hr; [done| |].
    - intros o b e [? ?] _. rewrite step_maxItemMapLen. split; [done|].
      by apply step_within_bounds.
    - simpl. split; [lia|]. unfold within_bounds. simpl.
      rewrite len_empty. lia. }
  destruct Hb as [_ Hb]. split; [done|].
  destruct Hb as (Hf & Hs & Hsum).
  unfold Len, GoInt.add. apply wrap_small.
  pose proof (len_nonneg (freshItems s.1)).
  pose proof (len_nonneg (staleItems s.1)).
  unfold GoInt.in_range, GoInt.min_int, GoInt.max_int. lia.
Qed.

(** *** [fresh] is bounded for every half capacity *)

Lemma addLocked_fresh_bounded key val b :
  fresh_bounded b → fresh_bounded (addLocked key val b).2.
Proof.
  unfold fresh_bounded. intros Hb.
  destruct (freshFull b) eqn:Hfull.
  - rewrite addLocked_rotate by done. simpl. rewrite len_singleton. lia.
  - rewrite addLocked_keep by done. simpl.
    apply freshFull_false in Hfull.
    pose proof (len_insert_le key val (freshItems b)). lia.
Qed.

Lemma reachable_fresh_bounded maxItems b0 (s : BoundedCache V * E) :
  NewBoundedCache maxItems = Ok b0 →
  reachable nilV b0 s → fresh_bounded s.1.
Proof.
  intros Hnew Hr.
  apply (reachable_preserves fresh_bounded) in Hr; [done| |].
  - intros o b e Hb _.
    apply (step_preserves fresh_bounded (λ _ _, True)); try done.
    + intros. by apply addLocked_fresh_bounded.
    + intros. by apply addLocked_fresh_bounded.
    + intros k v b1 ? _ _. by apply addLocked_fresh_bounded.
    + intros b1 _. unfold fresh_bounded, Purge. simpl. rewrite len_empty. lia.
  - unfold NewBoundedCache in Hnew.
    destruct (maxItems <? 1); [done|]. injection Hnew as <-.
    unfold fresh_bounded. simpl. rewrite len_empty. lia.
Qed.
End Invariants.

(** C3 at the failing input. For [maxItems] the largest [int], [maxItems + 1]
    wraps and the half capacity is [-2^62]: after one [Add] the fresh
    generation holds one entry, which is more than the half capacity, and
    every [Add] rotates, so that of three keys added only the last two are
    resident. *)
Theorem bounds_break_at_max_int :
  ∃ b0 : BoundedCache nat,
    NewBoundedCache GoInt.max_int = Ok b0 ∧
    maxItemMapLen b0 = - 2 ^ 62 ∧
    reachable (E := unit) 0%nat b0
      (run 0%nat [OpAdd "a" 1%nat] (b0, tt)).2 ∧
    (let b := (run (E := unit) 0%nat [OpAdd "a" 1%nat] (b0, tt)).2.1 in
     len (freshItems b) = 1 ∧ ¬ within_bounds b) ∧
    (let b := (run (E := unit) 0%nat
                 [OpAdd "a" 1%nat; OpAdd "b" 2%nat; OpAdd "c" 3%nat]
                 (b0, tt)).2.1 in
     Peek 0%nat "a" b = (0%nat, false, false) ∧
     Peek 0%nat "b" b = (2%nat, true, true) ∧
     Peek 0%nat "c" b = (3%nat, true, false)).
Proof.
  eexists. split; [reflexivity|]. split; [by vm_compute|].
  split; [apply run_reachable; constructor|]. split.
  - split; [by vm_compute|]. intros (H & _). vm_compute in H. by apply H.
  - by vm_compute.
Qed.

(** ** Disjointness of the generations *)

Section Disjointness.
Context {V E : Type}.
Variable nilV : V.
Implicit Types b : BoundedCache V.

(** From disjoint generations, [addLocked] leaves disjoint generations
    exactly when the generation that ends up stale does not hold the key. *)
Lemma addLocked_disjoint_iff key val b :
  generations_disjoint b →
  generations_disjoint (addLocked key val b).2 ↔
  (if freshFull b then freshItems b !! key else staleItems b !! key) = None.
Proof.
  unfold generations_disjoint. intros Hd.
  destruct (freshFull b) eqn:Hfull.
  - rewrite addLocked_rotate by done. simpl.
    rewrite dom_singleton_L, <- not_elem_of_dom.
    apply disjoint_singleton_l.
  - rewrite addLocked_keep by done. simpl.
    rewrite dom_insert_L, <- not_elem_of_dom.
    rewrite disjoint_union_l, disjoint_singleton_l. tauto.
Qed.

Lemma deleteStale_disjoint key b :
  generations_disjoint b → generations_disjoint (deleteStale key b).
Proof.
  unfold generations_disjoint. simpl. rewrite dom_delete_L.
  intros Hd x Hx [Hy _]%elem_of_difference. by apply (Hd x).
Qed.

Lemma step_disjoint (o : op V E) b e :
  generations_disjoint b → add_keeps_apart b o →
  generations_disjoint (step nilV o (b, e)).2.1.
Proof.
  apply (step_preserves nilV generations_disjoint add_keeps_apart).
  - intros k v b1 Hd Hg. by apply addLocked_disjoint_iff.
  - intros k v b1 Hd Hf Hs. apply addLocked_disjoint_iff; [done|].
    by destruct (freshFull b1).
  - intros k v b1 Hd Hf Hs.
    apply addLocked_disjoint_iff; [by apply deleteStale_disjoint|].
    rewrite deleteStale_freshFull. simpl.
    destruct (freshFull b1); [done|]. apply lookup_delete_eq.
  - intros b1 _. unfold generations_disjoint, Purge. simpl. set_solver.
Qed.
End Disjointness.

(** C2, amended. In every state reached from a new cache by calls of [Get],
    [GetOrCreate], [Peek], [Purge] and by calls [Add(key, _)] made while the
    generation that will be stale after the call ([fresh] if the call
    rotates, [stale] otherwise) does not hold [key], no key is in both
    generations; and in such a state an [Add] keeps the generations disjoint
    exactly under that condition. *)
Theorem generations_disjoint_unless_Add_duplicates {V E : Type} (nilV : V)
    (maxItems : Z) (b0 : BoundedCache V) (s : BoundedCache V * E) :
  NewBoundedCache maxItems = Ok b0 →
  reachable_if nilV add_keeps_apart b0 s →
  generations_disjoint s.1 ∧
  (∀ key val,
     generations_disjoint (Add key val s.1).2 ↔
     add_keeps_apart (E := E) s.1 (OpAdd key val)).
Proof.
  intros Hnew Hr.
  assert (Hd : generations_disjoint s.1).
  { apply (reachable_preserves nilV generations_disjoint) in Hr; [done| |].
    - intros o b e. apply step_disjoint.
    - unfold NewBoundedCache in Hnew.
      destruct (maxItems <? 1); [done|]. injection Hnew as <-.
      unfold generations_disjoint. simpl. set_solver. }
  split; [done|]. intros key val. by apply addLocked_disjoint_iff.
Qed.

Lemma generations_disjoint_unless_Add_duplicates_witness :
  let b0 := mkBoundedCache (V := nat) ∅ ∅ (GoInt.quot (GoInt.add 2 1) 2) in
  let s := (step (E := unit) 0%nat (OpGet "a")
              (step 0%nat (OpAdd "b" 2%nat)
                 (step 0%nat (OpAdd "a" 1%nat) (b0, tt)).2).2).2 in
  NewBoundedCache 2 = Ok b0 ∧
  Peek 0%nat "a" s.1 = (1%nat, true, false) ∧
  Peek 0%nat "b" s.1 = (2%nat, true, true) ∧
  generations_disjoint s.1.
Proof.
  intros b0 s. split; [reflexivity|]. split; [reflexivity|].
  split; [reflexivity|].
  refine (proj1 (generations_disjoint_unless_Add_duplicates 0%nat 2 b0 s
                   eq_refl _)).
  apply reachable_step; [|exact I].
  apply reachable_step; [|reflexivity].
  apply reachable_step; [|reflexivity].
  apply reachable_init.
Defined.

(** C2 as stated fails: [Add] of a key that sits in [stale], made while
    [fresh] has room, leaves the key in both generations. *)
Lemma Add_duplicates_stale_key :
  ∃ b0 : BoundedCache nat,
    NewBoundedCache 4 = Ok b0 ∧
    let s := (run (E := unit) 0%nat
                [OpAdd "a" 1%nat; OpAdd "b" 2%nat; OpAdd "c" 3%nat;
                 OpAdd "a" 4%nat] (b0, tt)).2 in
    reachable 0%nat b0 s ∧
    freshItems s.1 !! "a" = Some 4%nat ∧
    staleItems s.1 !! "a" = Some 1%nat ∧
    ¬ generations_disjoint s.1.
Proof.
  eexists. split; [reflexivity|]. cbv zeta.
  split; [apply run_reachable; constructor|].
  split; [by vm_compute|]. split; [by vm_compute|].
  intros H. apply (H "a"); apply elem_of_dom; eexists; by vm_compute.
Qed.

(** ** Repeated [Add] of one entry *)

Section RepeatedAdd.
Context {V : Type}.
Implicit Types b : BoundedCache V.

(** Writing an entry that [fresh] already holds, while [fresh] has room,
    changes nothing. *)
Lemma Add_same_noop key val b :
  freshItems b !! key = Some val → freshFull b = false →
  (Add key val b).2 = b.
Proof.
  intros Hk Hfull. unfold Add. rewrite addLocked_keep by done. simpl.
  rewrite insert_id by done. by destruct b.
Qed.

(** Once the entry is in [fresh], a further [Add] may rotate once; the
    state it produces is a fixed point of [Add]. *)
Lemma Add_twice_stable key val b :
  freshItems b !! key = Some val → fresh_bounded b →
  (Add key val (Add key val b).2).2 = (Add key val b).2.
Proof.
  intros Hk Hb. destruct (freshFull b) eqn:Hfull.
  - set (b2 := mkBoundedCache (freshItems b) {[key := val]} (maxItemMapLen b)).
    assert (Hadd : (Add key val b).2 = b2)
      by (unfold Add; by rewrite (addLocked_rotate key val b Hfull)).
    rewrite Hadd. destruct (freshFull b2) eqn:Hfull2.
    + unfold Add. rewrite (addLocked_rotate key val b2 Hfull2).
      subst b2. simpl.
      apply freshFull_true in Hfull2. simpl in Hfull2.
      rewrite len_singleton in Hfull2.
      pose proof (len_lookup_pos _ _ _ Hk) as Hpos.
      unfold fresh_bounded in Hb.
      assert (Hone : len (freshItems b) = 1) by lia.
      by rewrite (len_one_singleton key val (freshItems b) Hone Hk).
    + apply Add_same_noop; [|done]. subst b2. simpl.
      apply lookup_singleton_eq.
  - rewrite (Add_same_noop key val b) by done. by apply Add_same_noop.
Qed.

Lemma addTimes_fixed n key val b :
  (Add key val b).2 = b → addTimes n key val b = b.
Proof.
  intros Hfix. induction n as [|n IH]; [done|]. simpl. by rewrite Hfix.
Qed.

Lemma addTimes_plus n m key val b :
  addTimes (n + m) key val b = addTimes m key val (addTimes n key val b).
Proof.
  revert b. induction n as [|n IH]; intros b; [done|]. simpl. apply IH.
Qed.
End RepeatedAdd.

(** C7, amended. In every reachable state, the cache is left unchanged by
    every [Add(key, val)] that follows two such calls, so that [Len()] never
    changes after the second call; and when [fresh] has room after the first
    call, [Len()] never changes after the first call. *)
Theorem Add_idempotent_after_second {V E : Type} (nilV : V) (maxItems : Z)
    (b0 : BoundedCache V) (s : BoundedCache V * E) (key : string) (val : V) :
  NewBoundedCache maxItems = Ok b0 →
  reachable nilV b0 s →
  (∀ n, addTimes (2 + n) key val s.1 = addTimes 2 key val s.1) ∧
  (∀ n, Len (addTimes (2 + n) key val s.1) = Len (addTimes 2 key val s.1)) ∧
  (freshFull (addTimes 1 key val s.1) = false →
   ∀ n, Len (addTimes (1 + n) key val s.1) = Len (addTimes 1 key val s.1)).
Proof.
  intros Hnew Hr.
  pose proof (reachable_fresh_bounded nilV maxItems b0 s Hnew Hr) as Hb.
  set (b1 := (Add key val s.1).2).
  assert (Hk : freshItems b1 !! key = Some val)
    by apply addLocked_fresh_lookup.
  assert (Hb1 : fresh_bounded b1) by (by apply addLocked_fresh_bounded).
  assert (Hstable : ∀ n, addTimes (2 + n) key val s.1
                         = addTimes 2 key val s.1).
  { intros n. rewrite addTimes_plus. apply addTimes_fixed. simpl.
    by apply Add_twice_stable. }
  split; [done|]. split.
  - intros n. by rewrite Hstable.
  - intros Hroom n. rewrite addTimes_plus. f_equal.
    apply addTimes_fixed. simpl. by apply Add_same_noop.
Qed.

Lemma Add_idempotent_after_second_witness :
  let b0 := mkBoundedCache (V := nat) ∅ ∅ (GoInt.quot (GoInt.add 2 1) 2) in
  let s := (step (E := unit) 0%nat (OpAdd "b" 2%nat) (b0, tt)).2 in
  NewBoundedCache 2 = Ok b0 ∧
  Len (addTimes 1 "a" 1%nat s.1) = 2 ∧
  Len (addTimes 2 "a" 1%nat s.1) = 2 ∧
  ∀ n, Len (addTimes (2 + n) "a" 1%nat s.1) = Len (addTimes 2 "a" 1%nat s.1).
Proof.
  intros b0 s. split; [reflexivity|]. split; [reflexivity|].
  split; [reflexivity|].
  refine (proj1 (proj2 (Add_idempotent_after_second 0%nat 2 b0 s "a" 1%nat
                          eq_refl _))).
  apply reachable_step; [|exact I]. apply reachable_init.
Defined.

(** C7 as stated fails: on a new cache of capacity 2 the first [Add] gives
    [Len() = 1] and the same [Add] again rotates the full [fresh], which
    gives [Len() = 2]. *)
Lemma Add_again_changes_Len :
  ∃ b0 : BoundedCache nat,
    NewBoundedCache 2 = Ok b0 ∧
    Len (addTimes 1 "a" 1%nat b0) = 1 ∧
    Len (addTimes 2 "a" 1%nat b0) = 2 ∧
    addTimes 2 "a" 1%nat b0
      = mkBoundedCache {[ "a" := 1%nat ]} {[ "a" := 1%nat ]} 1.
Proof.
  eexists. split; [reflexivity|]. by vm_compute.
Qed.

(** ** The older cache against the newer one *)

Section LegacyComparison.
Context {V E : Type}.
Variable nilV : V.

(** On the same data the two [addLocked] write the same cache; the older
    one reports every rotation, the newer one only the rotations that
    discard a non-empty stale generation. *)
Lemma addLocked_sim key (val : V) bo bn :
  same_cache bo bn →
  same_cache (Legacy.addLocked key val bo).2 (addLocked key val bn).2 ∧
  (Legacy.addLocked key val bo).1 = freshFull bn ∧
  (addLocked key val bn).1 = freshFull bn && (0 <? len (staleItems bn)).
Proof.
  destruct bo as [so fo ho], bn as [sn fn hn].
  intros (Hs & Hf & Hh). simpl in *. subst.
  unfold Legacy.addLocked, addLocked, freshFull, same_cache. simpl.
  by destruct (hn <=? len fn).
Qed.

Lemma addLocked_sim_flag key (val : V) bo bn :
  same_cache bo bn →
  (addLocked key val bn).1 = true → (Legacy.addLocked key val bo).1 = true.
Proof.
  intros Hs. destruct (addLocked_sim key val bo bn Hs) as (_ & -> & ->).
  by intros [? _]%andb_true_iff.
Qed.

Lemma deleteStale_sim key (bo : Legacy.BoundedCache V) bn :
  same_cache bo bn →
  same_cache (Legacy.deleteStale key bo) (deleteStale key bn).
Proof.
  intros (Hs & Hf & Hh). unfold same_cache. simpl. by rewrite Hs, Hf, Hh.
Qed.

Lemma Len_sim (bo : Legacy.BoundedCache V) bn :
  same_cache bo bn → Legacy.Len bo = Len bn.
Proof. intros (Hs & Hf & _). unfold Legacy.Len, Len. by rewrite Hs, Hf. Qed.

Lemma MaxItems_sim (bo : Legacy.BoundedCache V) bn :
  same_cache bo bn → Legacy.MaxItems bo = MaxItems bn.
Proof. intros (_ & _ & Hh). unfold Legacy.MaxItems, MaxItems. by rewrite Hh. Qed.

Lemma step_sim (o : op V E) bo bn e ro so :
  same_cache bo bn →
  Legacy.step nilV o (bo, e) = Some (ro, so) →
  ∃ rn bn', step nilV o (bn, e) = (rn, (bn', so.2)) ∧
            same_cache so.1 bn' ∧ ret_agree ro rn.
Proof.
  intros Hsame Hstep.
  pose proof Hsame as (Hs & Hf & Hh).
  destruct o as [key val|key|key|key create| | |]; simpl in Hstep |- *.
  - unfold Legacy.Add, Add in *.
    pose proof (addLocked_sim key val bo bn Hsame) as (Hc & _).
    pose proof (addLocked_sim_flag key val bo bn Hsame) as Hfl.
    destruct (Legacy.addLocked key val bo) as [eo bo'].
    destruct (addLocked key val bn) as [en bn']. simplify_eq.
    by eexists _, _.
  - unfold Legacy.Get, Get in *. rewrite Hf, Hs in Hstep.
    destruct (freshItems bn !! key) as [v|]; [simplify_eq; by eexists _, _|].
    destruct (staleItems bn !! key) as [v|]; [|simplify_eq; by eexists _, _].
    pose proof (deleteStale_sim key bo bn Hsame) as Hd.
    pose proof (addLocked_sim key v _ _ Hd) as (Hc & _).
    pose proof (addLocked_sim_flag key v _ _ Hd) as Hfl.
    destruct (Legacy.addLocked key v (Legacy.deleteStale key bo)) as [eo bo'].
    destruct (addLocked key v (deleteStale key bn)) as [en bn']. simplify_eq.
    by eexists _, _.
  - done.
  - unfold Legacy.GetOrCreate, GetOrCreate in *. rewrite Hf, Hs in Hstep.
    destruct (freshItems bn !! key) as [v|]; [simplify_eq; by eexists _, _|].
    destruct (staleItems bn !! key) as [v|].
    + pose proof (deleteStale_sim key bo bn Hsame) as Hd.
      pose proof (addLocked_sim key v _ _ Hd) as (Hc & _).
      pose proof (addLocked_sim_flag key v _ _ Hd) as Hfl.
      destruct (Legacy.addLocked key v (Legacy.deleteStale key bo))
        as [eo bo'].
      destruct (addLocked key v (deleteStale key bn)) as [en bn'].
      simplify_eq. by eexists _, _.
    + destruct (create e) as [v e'].
      pose proof (addLocked_sim key v bo bn Hsame) as (Hc & _).
      pose proof (addLocked_sim_flag key v bo bn Hsame) as Hfl.
      destruct (Legacy.addLocked key v bo) as [eo bo'].
      destruct (addLocked key v bn) as [en bn']. simplify_eq.
      by eexists _, _.
  - simplify_eq. eexists _, _. split; [done|]. split; [done|].
    simpl. by apply Len_sim.
  - simplify_eq. eexists _, _. split; [done|]. split; [done|].
    simpl. by apply MaxItems_sim.
  - simplify_eq. eexists _, _. split; [done|]. split; [|done].
    unfold same_cache. simpl. done.
Qed.

Lemma Legacy_run_cons (o : op V E) ops s :
  Legacy.run nilV (o :: ops) s =
    match Legacy.step nilV o s with
    | None => None
    | Some (r, s') =>
        match Legacy.run nilV ops s' with
        | None => None
        | Some (rs, s'') => Some (r :: rs, s'')
        end
    end.
Proof. done. Qed.

Lemma run_cons (o : op V E) ops s :
  run nilV (o :: ops) s =
    let '(r, s') := step nilV o s in
    let '(rs, s'') := run nilV ops s' in (r :: rs, s'').
Proof. done. Qed.

Lemma run_sim (ops : list (op V E)) bo bn e rs_o so :
  same_cache bo bn →
  Legacy.run nilV ops (bo, e) = Some (rs_o, so) →
  ∃ rs_n bn', run nilV ops (bn, e) = (rs_n, (bn', so.2)) ∧
              same_cache so.1 bn' ∧ Forall2 ret_agree rs_o rs_n.
Proof.
  revert bo bn e rs_o so.
  induction ops as [|o ops IH]; intros bo bn e rs_o so Hsame Hrun.
  - simpl in *. simplify_eq. by eexists _, _.
  - rewrite Legacy_run_cons in Hrun.
    destruct (Legacy.step nilV o (bo, e)) as [[ro [bo1 e1]]|] eqn:Hstep;
      [|done].
    destruct (Legacy.run nilV ops (bo1, e1)) as [[rs so']|] eqn:Hrest;
      [|done].
    simplify_eq.
    destruct (step_sim o bo bn e ro (bo1, e1) Hsame Hstep)
      as (rn & bn1 & Hn & Hsame1 & Hret).
    destruct (IH bo1 bn1 e1 rs so Hsame1 Hrest)
      as (rs_n & bn' & Hn' & Hsame' & Hrets).
    rewrite run_cons, Hn. simpl in *. rewrite Hn'. eexists _, _.
    split; [done|]. split; [done|]. by constructor.
Qed.

Lemma New_even_sim maxItems :
  2 ≤ maxItems ≤ GoInt.max_int → Z.even maxItems = true →
  ∃ (bo : Legacy.BoundedCache V) (bn : BoundedCache V),
    Legacy.New maxItems = Ok bo ∧ NewBoundedCache maxItems = Ok bn ∧
    same_cache bo bn ∧
    Legacy.MaxItems bo = maxItems ∧ MaxItems bn = maxItems.
Proof.
  intros Hm Hev. apply Z.even_spec in Hev as [k ->].
  unfold GoInt.max_int in Hm.
  assert (Ho : GoInt.quot (2 * k) 2 = k).
  { unfold GoInt.quot. rewrite Z.quot_div_nonneg by lia.
    rewrite (Z.mul_comm 2 k), Z.div_mul by lia.
    apply wrap_small.
    unfold GoInt.in_range, GoInt.min_int, GoInt.max_int. lia. }
  assert (Hn : GoInt.quot (GoInt.add (2 * k) 1) 2 = k).
  { unfold GoInt.quot, GoInt.add.
    rewrite (wrap_small (2 * k + 1))
      by (unfold GoInt.in_range, GoInt.min_int, GoInt.max_int; lia).
    rewrite Z.quot_div_nonneg by lia.
    replace ((2 * k + 1) / 2) with k
      by (apply Z.div_unique with (r := 1); lia).
    apply wrap_small.
    unfold GoInt.in_range, GoInt.min_int, GoInt.max_int. lia. }
  assert (Hc : GoInt.mul k 2 = 2 * k).
  { unfold GoInt.mul. rewrite wrap_small; [lia|].
    unfold GoInt.in_range, GoInt.min_int, GoInt.max_int. lia. }
  eexists _, _. split; [|split].
  - unfold Legacy.New. destruct (2 * k <? 2) eqn:Hlt; [|done].
    apply Z.ltb_lt in Hlt. lia.
  - apply NewBoundedCache_Ok. lia.
  - unfold same_cache, Legacy.MaxItems, MaxItems. simpl.
    rewrite Ho, Hn. done.
Qed.
End LegacyComparison.

(** C8, amended. For every even [maxItems >= 2] the two constructors give
    caches with the same generations, half capacity and capacity
    [maxItems]; and from caches holding the same data, every sequence of
    [Add], [Get], [GetOrCreate], [Len], [MaxItems] and [Purge] calls leaves
    the same data in both and returns the same values, [found] and [created]
    flags and lengths.  The [evicted] flags differ: the older cache reports
    every rotation, the newer one only a rotation that discards a non-empty
    stale generation, so the newer flag implies the older one. *)
Theorem legacy_agrees_up_to_eviction_flag {V E : Type} (nilV : V) :
  (∀ maxItems,
     2 ≤ maxItems ≤ GoInt.max_int → Z.even maxItems = true →
     ∃ (bo : Legacy.BoundedCache V) (bn : BoundedCache V),
       Legacy.New maxItems = Ok bo ∧ NewBoundedCache maxItems = Ok bn ∧
       same_cache bo bn ∧
       Legacy.MaxItems bo = maxItems ∧ MaxItems bn = maxItems) ∧
  (∀ (ops : list (op V E)) bo bn e rs_o so,
     same_cache bo bn →
     Legacy.run nilV ops (bo, e) = Some (rs_o, so) →
     ∃ rs_n bn', run nilV ops (bn, e) = (rs_n, (bn', so.2)) ∧
                 same_cache so.1 bn' ∧ Forall2 ret_agree rs_o rs_n) ∧
  (∀ key (val : V) bo bn,
     same_cache bo bn →
     (Legacy.addLocked key val bo).1 = freshFull bn ∧
     (addLocked key val bn).1 = freshFull bn && (0 <? len (staleItems bn))).
Proof.
  split; [|split].
  - apply New_even_sim.
  - apply run_sim.
  - intros key val bo bn Hs. by destruct (addLocked_sim key val bo bn Hs).
Qed.

Lemma legacy_agrees_up_to_eviction_flag_witness :
  let bo := Legacy.mkBoundedCache (V := nat) ∅ ∅ 1 in
  let bn := mkBoundedCache (V := nat) ∅ ∅ 1 in
  let ops : list (op nat unit) :=
    [OpAdd "a" 1%nat; OpAdd "b" 2%nat; OpGet "a"; OpLen] in
  same_cache bo bn ∧
  Legacy.run 0%nat ops (bo, tt)
    = Some ([RetAdd false; RetAdd true; RetGet 1%nat true true; RetInt 2],
            (Legacy.mkBoundedCache {[ "b" := 2%nat ]} {[ "a" := 1%nat ]} 1,
             tt)) ∧
  ∃ rs_n bn',
    run 0%nat ops (bn, tt) = (rs_n, (bn', tt)) ∧
    same_cache (Legacy.mkBoundedCache {[ "b" := 2%nat ]} {[ "a" := 1%nat ]} 1)
               bn' ∧
    Forall2 ret_agree
      [RetAdd false; RetAdd true; RetGet 1%nat true true; RetInt 2] rs_n.
Proof.
  intros bo bn ops.
  assert (Hs : same_cache bo bn) by (repeat split).
  split; [exact Hs|]. split; [reflexivity|].
  exact (proj1 (proj2 (legacy_agrees_up_to_eviction_flag 0%nat))
           ops bo bn tt _ _ Hs eq_refl).
Defined.

(** C8 as stated fails twice.  For [maxItems = 3], accepted by both
    constructors, the older cache has capacity 2 and the newer one 4.  For
    [maxItems = 2], where the capacities agree, the second of two [Add]
    calls rotates with an empty stale generation: the older cache returns
    [evicted = true], the newer one [false]. *)
Lemma legacy_differs :
  (∃ (bo : Legacy.BoundedCache nat) (bn : BoundedCache nat),
     Legacy.New 3 = Ok bo ∧ NewBoundedCache 3 = Ok bn ∧
     Legacy.MaxItems bo = 2 ∧ MaxItems bn = 4) ∧
  (∃ (bo : Legacy.BoundedCache nat) (bn : BoundedCache nat),
     Legacy.New 2 = Ok bo ∧ NewBoundedCache 2 = Ok bn ∧
     Legacy.MaxItems bo = MaxItems bn ∧
     fst <$> Legacy.run (E := unit) 0%nat
               [OpAdd "a" 1%nat; OpAdd "b" 2%nat] (bo, tt)
       = Some [RetAdd false; RetAdd true] ∧
     (run (E := unit) 0%nat [OpAdd "a" 1%nat; OpAdd "b" 2%nat] (bn, tt)).1
       = [RetAdd false; RetAdd false]).
Proof.
  split; eexists _, _; (split; [reflexivity|]); (split; [reflexivity|]);
    by vm_compute.
Qed.

(** ** The behaviour test in miniature

    [TestBoundedCacheBehavior] with capacity 4 instead of 100: four keys are
    added without eviction, the first two end up stale; reading the fresh
    keys evicts nothing; reading the stale key "1" rotates the full [fresh],
    evicts "0" and leaves "1" fresh and "2", "3" stale. *)
Example behaviour_scenario :
  ∃ b0 : BoundedCache nat,
    NewBoundedCache 4 = Ok b0 ∧
    (run (E := unit) 0%nat
       [OpAdd "0" 0%nat; OpAdd "1" 1%nat; OpAdd "2" 2%nat; OpAdd "3" 3%nat;
        OpPeek "0"; OpPeek "1"; OpPeek "2"; OpPeek "3";
        OpGet "2"; OpGet "3"; OpGet "1";
        OpPeek "0"; OpPeek "1"; OpPeek "2"; OpPeek "3"; OpLen]
       (b0, tt)).1
    = [RetAdd false; RetAdd false; RetAdd false; RetAdd false;
       RetPeek 0%nat true true; RetPeek 1%nat true true;
       RetPeek 2%nat true false; RetPeek 3%nat true false;
       RetGet 2%nat true false; RetGet 3%nat true false;
       RetGet 1%nat true true;
       RetPeek 0%nat false false; RetPeek 1%nat true false;
       RetPeek 2%nat true true; RetPeek 3%nat true true; RetInt 3].
Proof.
  eexists. split; [reflexivity|]. by vm_compute.
Qed.

(** * Further properties of the operations *)

(** ** What a look-up finds *)

Section Residence.
Context {V : Type}.
Variable nilV : V.
Implicit Types b : BoundedCache V.

Lemma Peek_resident key b :
  Peek nilV key b =
    match resident b key with
    | Some v => (v, true, bool_decide (freshItems b !! key = None))
    | None => (nilV, false, false)
    end.
Proof.
  unfold Peek, resident. destruct (freshItems b !! key) as [v|]; [done|].
  by destruct (staleItems b !! key).
Qed.

Lemma Peek_found_resident key v b :
  (Peek nilV key b).1 = (v, true) ↔ resident b key = Some v.
Proof.
  rewrite Peek_resident. destruct (resident b key) as [w|]; simpl.
  - split; intros; by simplify_eq.
  - split; intros; by simplify_eq.
Qed.

Lemma Peek_found_is_Some key b :
  (Peek nilV key b).1.2 = true ↔ is_Some (resident b key).
Proof.
  rewrite Peek_resident. destruct (resident b key) as [w|]; simpl.
  - split; eauto.
  - split; [done|]. by intros [? ?].
Qed.

Lemma resident_deleteStale_ne key k b :
  k ≠ key → resident (deleteStale key b) k = resident b k.
Proof.
  intros Hne. unfold resident. simpl. by rewrite lookup_delete_ne.
Qed.

Lemma resident_addLocked_eq key val b :
  resident (addLocked key val b).2 key = Some val.
Proof. unfold resident. by rewrite addLocked_fresh_lookup. Qed.
End Residence.

(** X1. [Purge] empties the cache and keeps its capacity: [Len()] is 0,
    every [Peek] and [Get] misses and changes nothing, a second [Purge]
    changes nothing, and [GetOrCreate] creates its value without reporting
    an eviction. *)
Theorem Purge_empties {V E : Type} (nilV : V) (b : BoundedCache V)
    (key : string) (create : E → V * E) (e : E) :
  Len (Purge b) = 0 ∧
  MaxItems (Purge b) = MaxItems b ∧
  Peek nilV key (Purge b) = (nilV, false, false) ∧
  Get nilV key (Purge b) = ((nilV, false, false), Purge b) ∧
  Purge (Purge b) = Purge b ∧
  (GetOrCreate key create (Purge b) e).1.1 = ((create e).1, true, false) ∧
  (GetOrCreate key create (Purge b) e).2 = (create e).2.
Proof.
  do 5 (split; [reflexivity|]).
  unfold GetOrCreate. simpl. rewrite lookup_empty.
  destruct (create e) as [v e']. simpl. split.
  - unfold addLocked, freshFull. simpl.
    by destruct (maxItemMapLen b <=? len (∅ : gmap string V)).
  - by destruct (addLocked key v (Purge b)).
Qed.

(** X2. What [Add] writes is what the look-ups read: after [Add(key, val)],
    [Peek(key)] returns [val] as a fresh entry, [Get(key)] returns [val]
    without eviction and without changing the cache, and [GetOrCreate(key)]
    returns [val] with [created = false] without invoking [create]. *)
Theorem Add_then_lookup {V E : Type} (nilV : V) (b : BoundedCache V)
    (key : string) (val : V) (create : E → V * E) (e : E) :
  let b' := (Add key val b).2 in
  Peek nilV key b' = (val, true, false) ∧
  Get nilV key b' = ((val, true, false), b') ∧
  GetOrCreate key create b' e = ((val, false, false), b', e).
Proof.
  intros b'.
  assert (Hk : freshItems b' !! key = Some val) by apply addLocked_fresh_lookup.
  unfold Peek, Get, GetOrCreate. by rewrite Hk.
Qed.

(** X3. [Get] and [Peek] find the same thing: the value and the [found] flag
    of [Get(key)] are those of [Peek(key)] on the cache before the call; and
    when [Get] finds the key, the key is fresh afterwards, so that a second
    [Get] returns the same value, reports no eviction and changes nothing. *)
Theorem Get_agrees_with_Peek {V : Type} (nilV : V) (b : BoundedCache V)
    (key : string) :
  let r := Get nilV key b in
  r.1.1 = (Peek nilV key b).1 ∧
  (r.1.1.2 = true →
   Peek nilV key r.2 = (r.1.1.1, true, false) ∧
   Get nilV key r.2 = ((r.1.1.1, true, false), r.2)).
Proof.
  unfold Get, Peek.
  destruct (freshItems b !! key) as [v|] eqn:Hf; simpl.
  { split; [done|]. intros _. by rewrite Hf. }
  destruct (staleItems b !! key) as [v|] eqn:Hs; simpl; [|done].
  pose proof (addLocked_fresh_lookup key v (deleteStale key b)) as Hk.
  destruct (addLocked key v (deleteStale key b)) as [ev b']. simpl in *.
  split; [done|]. intros _. by rewrite Hk.
Qed.

(** X4. [GetOrCreate] is [Get] followed, on a miss, by [Add] of the created
    value: when [Get(key)] finds the key, [GetOrCreate(key, create)] returns
    the same value and eviction flag and leaves the same cache, with
    [created = false] and [create] not invoked; otherwise it invokes
    [create] once and returns and leaves what [Add(key, create())] does,
    with [created = true]. *)
Theorem GetOrCreate_as_Get_or_Add {V E : Type} (nilV : V)
    (b : BoundedCache V) (key : string) (create : E → V * E) (e : E) :
  let g := Get nilV key b in
  let a := Add key (create e).1 b in
  GetOrCreate key create b e =
    if g.1.1.2
    then ((g.1.1.1, false, g.1.2), g.2, e)
    else (((create e).1, true, a.1), a.2, (create e).2).
Proof.
  unfold Get, GetOrCreate, Add.
  destruct (freshItems b !! key) as [v|] eqn:Hf; simpl; [done|].
  destruct (staleItems b !! key) as [v|] eqn:Hs; simpl.
  - by destruct (addLocked key v (deleteStale key b)).
  - destruct (create e) as [v e']. simpl. by destruct (addLocked key v b).
Qed.

(** X5. [GetOrCreate] populates: whatever the cache held, after
    [GetOrCreate(key, create)] the key is fresh with the value the call
    returned, and a further [GetOrCreate(key, _)] returns that value with
    [created = false], no eviction, the cache unchanged and its own
    [create] not invoked. *)
Theorem GetOrCreate_populates {V E : Type} (nilV : V) (b : BoundedCache V)
    (key : string) (create create' : E → V * E) (e e' : E) :
  let r := GetOrCreate key create b e in
  Peek nilV key r.1.2 = (r.1.1.1.1, true, false) ∧
  GetOrCreate key create' r.1.2 e' = ((r.1.1.1.1, false, false), r.1.2, e').
Proof.
  assert (Hhit : ∀ (b1 : BoundedCache V) v, freshItems b1 !! key = Some v →
            Peek nilV key b1 = (v, true, false) ∧
            GetOrCreate key create' b1 e' = ((v, false, false), b1, e')).
  { intros b1 v Hk. unfold Peek, GetOrCreate. by rewrite Hk. }
  intros r. apply Hhit. subst r. unfold GetOrCreate.
  destruct (freshItems b !! key) as [v|] eqn:Hf; simpl; [done|].
  destruct (staleItems b !! key) as [v|] eqn:Hs; simpl.
  - pose proof (addLocked_fresh_lookup key v (deleteStale key b)) as Hk.
    by destruct (addLocked key v (deleteStale key b)) as [ev b1].
  - destruct (create e) as [v e1]. simpl.
    pose proof (addLocked_fresh_lookup key v b) as Hk.
    by destruct (addLocked key v b) as [ev b1].
Qed.

Lemma Get_agrees_with_Peek_witness :
  let b := mkBoundedCache (V := nat) {[ "a" := 1%nat; "c" := 3%nat ]}
                          {[ "b" := 2%nat ]} 1 in
  (Get 0%nat "a" b).1.1.2 = true ∧
  Peek 0%nat "a" (Get 0%nat "a" b).2 = (1%nat, true, false) ∧
  Get 0%nat "a" (Get 0%nat "a" b).2
    = ((1%nat, true, false), (Get 0%nat "a" b).2).
Proof.
  intros b. split; [reflexivity|].
  exact (proj2 (Get_agrees_with_Peek 0%nat b "a") eq_refl).
Defined.

(** ** The effect of one call *)

Section Effects.
Context {V E : Type}.
Variable nilV : V.
Implicit Types b : BoundedCache V.
Implicit Types o : op V E.

(** The cache and the eviction flag a call produces: nothing; those of
    [addLocked] on the cache as it is (an [Add], or a [GetOrCreate] of an
    absent key); those of [addLocked] after the removal of the stale entry
    read (a promotion); or a [Purge]. *)
Lemma step_effect o b e :
  let r := step nilV o (b, e) in
  (r.2.1 = b ∧ evicted_of r.1 = false ∧ o ≠ OpPurge) ∨
  (∃ k v,
     (o = OpAdd k v ∨
      (freshItems b !! k = None ∧ staleItems b !! k = None ∧
       ∃ c, o = OpGetOrCreate k c)) ∧
     r.2.1 = (addLocked k v b).2 ∧
     evicted_of r.1 = (addLocked k v b).1) ∨
  (∃ k v,
     freshItems b !! k = None ∧ staleItems b !! k = Some v ∧
     r.2.1 = (addLocked k v (deleteStale k b)).2 ∧
     evicted_of r.1 = (addLocked k v (deleteStale k b)).1) ∨
  (o = OpPurge ∧ r.2.1 = Purge b).
Proof.
  destruct o as [key val|key|key|key create| | |]; simpl.
  - right; left. exists key, val. unfold Add.
    destruct (addLocked key val b). simpl. by eauto.
  - unfold Get. destruct (freshItems b !! key) as [v|] eqn:Hf;
      [by left|].
    destruct (staleItems b !! key) as [v|] eqn:Hs; [|by left].
    right; right; left. exists key, v.
    by destruct (addLocked key v (deleteStale key b)).
  - left. by destruct (Peek nilV key b) as [[? ?] ?].
  - unfold GetOrCreate. destruct (freshItems b !! key) as [v|] eqn:Hf;
      [by left|].
    destruct (staleItems b !! key) as [v|] eqn:Hs.
    + right; right; left. exists key, v.
      by destruct (addLocked key v (deleteStale key b)).
    + right; left. destruct (create e) as [v e']. exists key, v.
      destruct (addLocked key v b). simpl. by eauto 10.
  - by left.
  - by left.
  - by repeat right.
Qed.

(** The effect of [addLocked] on the look-up of another key: a rotation
    makes the entries of [fresh] stale and drops the others; without a
    rotation nothing changes. *)
Lemma addLocked_resident_ne key val k b :
  k ≠ key →
  resident (addLocked key val b).2 k =
    if freshFull b then freshItems b !! k else resident b k.
Proof.
  intros Hne. unfold resident. destruct (freshFull b) eqn:Hfull.
  - rewrite addLocked_rotate by done. simpl.
    by rewrite lookup_singleton_ne.
  - rewrite addLocked_keep by done. simpl.
    by rewrite lookup_insert_ne.
Qed.

(** An insertion that reports no eviction loses no entry. *)
Lemma addLocked_keeps key val k v b :
  (addLocked key val b).1 = false → k ≠ key →
  resident b k = Some v → resident (addLocked key val b).2 k = Some v.
Proof.
  intros Hflag Hne Hres. rewrite addLocked_resident_ne by done.
  destruct (freshFull b) eqn:Hfull; [|done].
  rewrite addLocked_rotate in Hflag by done. simpl in Hflag.
  apply Z.ltb_ge in Hflag.
  assert (Hempty : staleItems b = ∅).
  { apply map_size_empty_iff. unfold len in Hflag. lia. }
  unfold resident in Hres. rewrite Hempty, lookup_empty in Hres.
  by destruct (freshItems b !! k).
Qed.
End Effects.

(** X6. The capacity is fixed at construction: no sequence of calls changes
    [MaxItems()]. *)
Theorem MaxItems_constant {V E : Type} (nilV : V) (ops : list (op V E))
    (b : BoundedCache V) (e : E) :
  MaxItems (run nilV ops (b, e)).2.1 = MaxItems b.
Proof.
  unfold MaxItems. f_equal.
  apply (reachable_maxItemMapLen nilV (λ _ _, True) b).
  apply run_reachable. constructor.
Qed.

(** X7. The eviction flag is a sound signal of loss: when a call other than
    [Purge] returns [evicted = false] (or has no such result), every key
    that [Peek] found before the call is found after it with the same value,
    except the key the call itself overwrites by [Add]. *)
Theorem no_eviction_flag_keeps_entries {V E : Type} (nilV : V) (o : op V E)
    (b : BoundedCache V) (e : E) (k : string) (v : V) :
  o ≠ OpPurge →
  evicted_of (step nilV o (b, e)).1 = false →
  (∀ val, o ≠ OpAdd k val) →
  (Peek nilV k b).1 = (v, true) →
  (Peek nilV k (step nilV o (b, e)).2.1).1 = (v, true).
Proof.
  intros Hpurge Hflag Hadd. rewrite !Peek_found_resident. intros Hres.
  destruct (step_effect nilV o b e)
    as [(-> & _)|[(key & val & Ho & -> & Hev)|
                  [(key & val & Hf & Hs & -> & Hev)|(-> & _)]]];
    [done| | |done].
  - rewrite Hev in Hflag. apply addLocked_keeps; [done| |done].
    intros ->. destruct Ho as [->|(Hf & Hs & _)]; [by apply (Hadd val)|].
    unfold resident in Hres. by rewrite Hf, Hs in Hres.
  - rewrite Hev in Hflag. destruct (decide (k = key)) as [->|Hne].
    + unfold resident in Hres. rewrite Hf, Hs in Hres. simplify_eq.
      apply resident_addLocked_eq.
    + apply addLocked_keeps; [done|done|].
      by rewrite resident_deleteStale_ne.
Qed.

Lemma no_eviction_flag_keeps_entries_witness :
  let b := mkBoundedCache (V := nat) ∅ {[ "a" := 1%nat; "b" := 2%nat ]} 2 in
  let o : op nat unit := OpAdd "c" 3%nat in
  step 0%nat o (b, tt) = (RetAdd false,
    (mkBoundedCache {[ "a" := 1%nat; "b" := 2%nat ]} {[ "c" := 3%nat ]} 2,
     tt)) ∧
  (Peek 0%nat "a" b).1 = (1%nat, true) ∧
  (Peek 0%nat "a" (step 0%nat o (b, tt)).2.1).1 = (1%nat, true).
Proof.
  intros b o. split; [reflexivity|]. split; [reflexivity|].
  apply (no_eviction_flag_keeps_entries 0%nat o b tt "a" 1%nat).
  - discriminate.
  - reflexivity.
  - intros val. discriminate.
  - reflexivity.
Defined.

(** X8. Which entries an [Add] evicts: for every key other than the one
    added, an [Add] made while [fresh] has room leaves the result of [Peek]
    as it was; an [Add] made while [fresh] is full turns every entry of
    [fresh] into a stale one and drops every entry that was not in
    [fresh]. *)
Theorem Add_effect_on_other_keys {V : Type} (nilV : V) (b : BoundedCache V)
    (key k : string) (val : V) :
  k ≠ key →
  Peek nilV k (Add key val b).2 =
    if freshFull b
    then match freshItems b !! k with
         | Some v => (v, true, true)
         | None => (nilV, false, false)
         end
    else Peek nilV k b.
Proof.
  intros Hne. unfold Add. rewrite !Peek_resident.
  rewrite addLocked_resident_ne by done.
  destruct (freshFull b) eqn:Hfull.
  - rewrite addLocked_rotate by done. simpl.
    rewrite lookup_singleton_ne by done.
    destruct (freshItems b !! k); [|done].
    by rewrite bool_decide_eq_true_2.
  - rewrite addLocked_keep by done. simpl.
    by rewrite lookup_insert_ne.
Qed.

Lemma Add_effect_on_other_keys_witness :
  let b := mkBoundedCache (V := nat) {[ "s" := 9%nat ]}
                          {[ "a" := 1%nat; "b" := 2%nat ]} 2 in
  "a" ≠ "c" ∧ "s" ≠ "c" ∧
  Peek 0%nat "a" (Add "c" 3%nat b).2 = (1%nat, true, true) ∧
  Peek 0%nat "s" (Add "c" 3%nat b).2 = (0%nat, false, false).
Proof.
  intros b.
  assert (Ha : "a" ≠ "c") by discriminate.
  assert (Hs : "s" ≠ "c") by discriminate.
  split; [exact Ha|]. split; [exact Hs|]. split.
  - exact (Add_effect_on_other_keys 0%nat b "c" "a" 3%nat Ha).
  - exact (Add_effect_on_other_keys 0%nat b "c" "s" 3%nat Hs).
Defined.

(** ** Filling the cache with new keys *)

Section Filling.
Context {V E : Type}.
Variable nilV : V.
Implicit Types b : BoundedCache V.

Lemma run_OpAdds_cons k v kvs b (e : E) :
  run nilV (OpAdds ((k, v) :: kvs)) (b, e) =
    let '(rs, s) := run nilV (OpAdds kvs) ((addLocked k v b).2, e) in
    (RetAdd (addLocked k v b).1 :: rs, s).
Proof.
  unfold OpAdds. simpl. unfold Add. by destruct (addLocked k v b).
Qed.

(** One insertion of a key the cache does not hold, with room left. *)
Lemma addLocked_new_key k v b :
  1 ≤ maxItemMapLen b → len (freshItems b) ≤ maxItemMapLen b →
  resident b k = None → 1 ≤ room b →
  let b1 := (addLocked k v b).2 in
  (addLocked k v b).1 = false ∧
  maxItemMapLen b1 = maxItemMapLen b ∧
  len (freshItems b1) ≤ maxItemMapLen b ∧
  room b - 1 ≤ room b1 ∧
  len (freshItems b1) + len (staleItems b1)
    = len (freshItems b) + len (staleItems b) + 1 ∧
  (∀ k' v', resident b k' = Some v' → resident b1 k' = Some v').
Proof.
  intros Hh Hf Hres Hroom b1.
  assert (Hfk : freshItems b !! k = None).
  { unfold resident in Hres. by destruct (freshItems b !! k). }
  assert (Hflag : (addLocked k v b).1 = false).
  { destruct (freshFull b) eqn:Hfull; [|by rewrite addLocked_keep].
    rewrite addLocked_rotate by done. simpl.
    apply freshFull_true in Hfull. unfold room in Hroom.
    destruct (0 <? len (staleItems b)); [lia|done]. }
  split; [done|].
  assert (Hkeep : ∀ k' v', resident b k' = Some v' →
                           resident b1 k' = Some v').
  { intros k' v' Hk'. apply addLocked_keeps; [done| |done].
    intros ->. by rewrite Hres in Hk'. }
  subst b1. destruct (freshFull b) eqn:Hfull.
  - rewrite addLocked_rotate in * by done. simpl in Hflag |- *.
    apply freshFull_true in Hfull. apply Z.ltb_ge in Hflag.
    pose proof (len_nonneg (staleItems b)).
    unfold room in *. simpl. rewrite len_singleton.
    destruct (0 <? len (staleItems b)) eqn:Hs; [apply Z.ltb_lt in Hs; lia|].
    destruct (0 <? len (freshItems b)) eqn:Hf0;
      [|apply Z.ltb_ge in Hf0]; repeat split; try done; lia.
  - rewrite addLocked_keep in * by done. simpl.
    apply freshFull_false in Hfull.
    assert (Hlen : len (<[k := v]> (freshItems b)) = len (freshItems b) + 1).
    { unfold len. rewrite map_size_insert_None by done. lia. }
    unfold room in *. simpl. rewrite Hlen.
    destruct (0 <? len (staleItems b)); repeat split; try done; lia.
Qed.

Lemma OpAdds_fit (kvs : list (string * V)) b (e : E) :
  1 ≤ maxItemMapLen b → len (freshItems b) ≤ maxItemMapLen b →
  NoDup kvs.*1 →
  (∀ k, k ∈ kvs.*1 → resident b k = None) →
  Z.of_nat (length kvs) ≤ room b →
  let r := run nilV (OpAdds kvs) (b, e) in
  r.1 = (λ _, RetAdd false) <$> kvs ∧
  r.2.2 = e ∧
  (∀ k v, resident b k = Some v → resident r.2.1 k = Some v) ∧
  (∀ k v, (k, v) ∈ kvs → resident r.2.1 k = Some v) ∧
  len (freshItems r.2.1) + len (staleItems r.2.1)
    = len (freshItems b) + len (staleItems b) + Z.of_nat (length kvs).
Proof.
  revert b. induction kvs as [|[k v] kvs IH]; intros b Hh Hf Hnd Hnew Hroom.
  { simpl. repeat split; try done; try lia. intros k v Hin. by inv Hin. }
  rewrite fmap_cons in Hnd, Hnew. simpl in Hnd, Hnew.
  apply NoDup_cons in Hnd as [Hk Hnd].
  assert (Hres : resident b k = None) by (apply Hnew; left).
  rewrite length_cons in Hroom.
  destruct (addLocked_new_key k v b Hh Hf Hres ltac:(lia))
    as (Hflag & Hh1 & Hf1 & Hroom1 & Hsum1 & Hkeep1).
  set (b1 := (addLocked k v b).2) in *.
  assert (Hnew1 : ∀ k', k' ∈ kvs.*1 → resident b1 k' = None).
  { intros k' Hin. subst b1. rewrite addLocked_resident_ne
      by (intros ->; done).
    destruct (freshFull b).
    - specialize (Hnew k' ltac:(by right)). unfold resident in Hnew.
      by destruct (freshItems b !! k').
    - apply Hnew. by right. }
  specialize (IH b1 ltac:(lia) ltac:(lia) Hnd Hnew1 ltac:(lia)).
  cbv zeta in IH |- *. rewrite run_OpAdds_cons. fold b1. rewrite Hflag.
  destruct (run nilV (OpAdds kvs) (b1, e)) as [rs [b2 e2]]. simpl in *.
  destruct IH as (Hrs & He & Hkeep & Hin & Hsum).
  split; [by rewrite Hrs|]. split; [done|]. split; [by auto|]. split.
  - intros k' v' [Heq|Hin']%elem_of_cons.
    + simplify_eq. apply Hkeep. apply resident_addLocked_eq.
    + by apply Hin.
  - lia.
Qed.
End Filling.

(** X9. A new cache takes [MaxItems()] distinct keys without evicting: for
    [1 <= maxItems < 2^63 - 1], after [Add] of any entries with pairwise
    distinct keys, no more than [MaxItems()] of them, every [Add] has
    returned [evicted = false], [Peek] finds every entry with its value,
    and [Len()] is the number of entries. *)
Theorem distinct_Adds_fit {V E : Type} (nilV : V) (maxItems : Z)
    (b0 : BoundedCache V) (kvs : list (string * V)) (e : E) :
  1 ≤ maxItems < GoInt.max_int →
  NewBoundedCache maxItems = Ok b0 →
  NoDup kvs.*1 →
  Z.of_nat (length kvs) ≤ MaxItems b0 →
  let r := run nilV (OpAdds kvs) (b0, e) in
  r.1 = (λ _, RetAdd false) <$> kvs ∧
  (∀ k v, (k, v) ∈ kvs → (Peek nilV k r.2.1).1 = (v, true)) ∧
  Len r.2.1 = Z.of_nat (length kvs).
Proof.
  intros Hm Hnew Hnd Hlen r.
  rewrite NewBoundedCache_Ok in Hnew by lia. injection Hnew as <-.
  pose proof (half_capacity_pos maxItems Hm) as Hh.
  set (h := GoInt.quot (GoInt.add maxItems 1) 2) in *.
  assert (Hcap : MaxItems (mkBoundedCache (V := V) ∅ ∅ h) = 2 * h).
  { unfold MaxItems, GoInt.mul. simpl. rewrite wrap_small; [lia|].
    unfold GoInt.in_range, GoInt.min_int, GoInt.max_int. lia. }
  rewrite Hcap in Hlen.
  set (b0 := mkBoundedCache (V := V) ∅ ∅ h) in *.
  assert (Hf0 : len (freshItems b0) = 0) by apply len_empty.
  assert (Hs0 : len (staleItems b0) = 0) by apply len_empty.
  assert (Hroom : room b0 = 2 * h).
  { unfold room. rewrite Hs0, Hf0. simpl. lia. }
  destruct (OpAdds_fit nilV kvs b0 e) as (Hrs & _ & _ & Hin & Hsum).
  - simpl. lia.
  - rewrite Hf0. simpl. lia.
  - done.
  - intros k _. unfold resident. simpl. by rewrite lookup_empty.
  - lia.
  - fold r in Hrs, Hin, Hsum. split; [done|]. split.
    + intros k v Hkv. apply Peek_found_resident. by apply Hin.
    + rewrite Hf0, Hs0 in Hsum.
      unfold Len, GoInt.add. rewrite wrap_small; [lia|].
      unfold GoInt.in_range, GoInt.min_int, GoInt.max_int. lia.
Qed.

Lemma distinct_Adds_fit_witness :
  let kvs := [("a", 1%nat); ("b", 2%nat); ("c", 3%nat); ("d", 4%nat)] in
  let r := run (E := unit) 0%nat (OpAdds kvs)
             (mkBoundedCache ∅ ∅ (GoInt.quot (GoInt.add 3 1) 2), tt) in
  1 ≤ 3 < GoInt.max_int ∧
  r.1 = (λ _, RetAdd false) <$> kvs ∧
  (∀ k v, (k, v) ∈ kvs → (Peek 0%nat k r.2.1).1 = (v, true)) ∧
  Len r.2.1 = 4.
Proof.
  intros kvs r.
  assert (Hm : 1 ≤ 3 < GoInt.max_int) by (unfold GoInt.max_int; lia).
  split; [exact Hm|].
  refine (distinct_Adds_fit 0%nat 3 _ kvs tt Hm eq_refl _ _).
  - apply (bool_decide_unpack _). by vm_compute.
  - by vm_compute.
Defined.

(** ** How long an entry stays *)

Section Survival.
Context {V E : Type}.
Variable nilV : V.
Implicit Types b : BoundedCache V.

Lemma life_resident key b : 0 ≤ life key b → is_Some (resident b key).
Proof.
  unfold life, resident. destruct (freshItems b !! key); [eauto|].
  destruct (staleItems b !! key); [eauto|lia].
Qed.

Lemma life_deleteStale_ne key k b :
  k ≠ key → life key (deleteStale k b) = life key b.
Proof. intros Hne. unfold life. simpl. by rewrite lookup_delete_ne. Qed.

(** One insertion costs an entry at most one unit of life, and leaves its
    value alone unless it writes the entry's own key. *)
Lemma addLocked_life key k v b :
  1 ≤ maxItemMapLen b → len (freshItems b) ≤ maxItemMapLen b →
  1 ≤ life key b →
  life key b - 1 ≤ life key (addLocked k v b).2 ∧
  (k ≠ key → resident (addLocked k v b).2 key = resident b key).
Proof.
  intros Hh Hf Hlife. split.
  - unfold life in *. destruct (freshFull b) eqn:Hfull.
    + rewrite addLocked_rotate by done. simpl. rewrite len_singleton.
      apply freshFull_true in Hfull.
      destruct (freshItems b !! key) as [x|] eqn:Hk.
      * destruct (decide (k = key)) as [->|Hne].
        -- rewrite lookup_singleton_eq. lia.
        -- rewrite lookup_singleton_ne by done. lia.
      * destruct (staleItems b !! key); lia.
    + rewrite addLocked_keep by done. simpl.
      apply freshFull_false in Hfull.
      pose proof (len_insert_le k v (freshItems b)) as Hins.
      destruct (decide (k = key)) as [->|Hne].
      * rewrite lookup_insert_eq.
        destruct (freshItems b !! key); [lia|].
        destruct (staleItems b !! key); lia.
      * rewrite lookup_insert_ne by done.
        destruct (freshItems b !! key); [lia|].
        destruct (staleItems b !! key); lia.
  - intros Hne. rewrite addLocked_resident_ne by done.
    destruct (freshFull b) eqn:Hfull; [|done].
    apply freshFull_true in Hfull. unfold life, resident in *.
    destruct (freshItems b !! key); [done|].
    destruct (staleItems b !! key); lia.
Qed.

Lemma addLocked_fresh_len key val b :
  1 ≤ maxItemMapLen b → len (freshItems b) ≤ maxItemMapLen b →
  len (freshItems (addLocked key val b).2) ≤ maxItemMapLen b.
Proof.
  intros Hh Hf.
  pose proof (addLocked_fresh_bounded (V := V) key val b) as Hb.
  unfold fresh_bounded in Hb. rewrite addLocked_maxItemMapLen in Hb. lia.
Qed.

Lemma step_life key (o : op V E) b e :
  1 ≤ maxItemMapLen b → len (freshItems b) ≤ maxItemMapLen b →
  o ≠ OpPurge → 1 ≤ life key b →
  let b1 := (step nilV o (b, e)).2.1 in
  maxItemMapLen b1 = maxItemMapLen b ∧
  len (freshItems b1) ≤ maxItemMapLen b ∧
  life key b - 1 ≤ life key b1 ∧
  ((∀ v, o ≠ OpAdd key v) → resident b1 key = resident b key).
Proof.
  intros Hh Hf Hpurge Hlife b1. subst b1.
  split; [apply step_maxItemMapLen|].
  destruct (step_effect nilV o b e)
    as [(-> & _)|[(k & v & Ho & -> & _)|
                  [(k & v & Hfk & Hsk & -> & _)|(-> & _)]]];
    [split; [done|]; split; [lia|done]| | |done].
  - split; [by apply addLocked_fresh_len|].
    destruct (addLocked_life key k v b Hh Hf Hlife) as [Hl Hr].
    split; [done|]. intros Hadd. apply Hr. intros ->.
    destruct Ho as [->|(Hfk & Hsk & _)]; [by apply (Hadd v)|].
    unfold life in Hlife. rewrite Hfk, Hsk in Hlife. lia.
  - split; [by apply (addLocked_fresh_len k v (deleteStale k b))|].
    destruct (decide (k = key)) as [->|Hne].
    + split.
      * assert (Hlen : len (freshItems (addLocked key v (deleteStale key b)).2)
                       ≤ maxItemMapLen b)
          by (by apply (addLocked_fresh_len key v (deleteStale key b))).
        assert (Hlb : life key b = maxItemMapLen b - len (freshItems b))
          by (unfold life; by rewrite Hfk, Hsk).
        assert (Hla : life key (addLocked key v (deleteStale key b)).2
                      = 2 * maxItemMapLen b
                        - len (freshItems
                                 (addLocked key v (deleteStale key b)).2)).
        { unfold life.
          by rewrite addLocked_fresh_lookup, addLocked_maxItemMapLen. }
        pose proof (len_nonneg (freshItems b)). lia.
      * intros _. rewrite resident_addLocked_eq.
        unfold resident. by rewrite Hfk, Hsk.
    + destruct (addLocked_life key k v (deleteStale k b)) as [Hl Hr];
        [done|done|by rewrite life_deleteStale_ne|].
      rewrite life_deleteStale_ne in Hl by done. split; [done|].
      intros _. rewrite Hr by done. by apply resident_deleteStale_ne.
Qed.

Lemma run_life key (ops : list (op V E)) b e :
  1 ≤ maxItemMapLen b → len (freshItems b) ≤ maxItemMapLen b →
  Forall (λ o, o ≠ OpPurge) ops →
  Z.of_nat (length ops) ≤ life key b →
  let b' := (run nilV ops (b, e)).2.1 in
  0 ≤ life key b' ∧
  (Forall (λ o, ∀ v, o ≠ OpAdd key v) ops →
   resident b' key = resident b key).
Proof.
  revert b e. induction ops as [|o ops IH]; intros b e Hh Hf Hnp Hlen.
  { simpl in *. split; [lia|done]. }
  apply Forall_cons in Hnp as [Hp Hnp]. rewrite length_cons in Hlen.
  destruct (step_life key o b e Hh Hf Hp ltac:(lia))
    as (Hh1 & Hf1 & Hl1 & Hr1).
  cbv zeta. rewrite run_cons.
  destruct (step nilV o (b, e)) as [r1 [b1 e1]]. simpl in *.
  specialize (IH b1 e1 ltac:(lia) ltac:(lia) Hnp ltac:(lia)).
  destruct (run nilV ops (b1, e1)) as [rs [b2 e2]]. simpl in *.
  destruct IH as [Hl2 Hr2]. split; [done|].
  intros [Ha Has]%Forall_cons. rewrite Hr2 by done. by apply Hr1.
Qed.
End Survival.

(** X10. An entry just written outlives the next [maxItemMapLen] calls: in a
    cache with a positive half capacity that [fresh] does not exceed, after
    [Add(key, val)] and any sequence of at most [maxItemMapLen] calls, none
    of them [Purge], [Peek(key)] still finds the key; and it finds [val]
    when none of the calls is an [Add] of the same key. *)
Theorem entry_survives_half_capacity_calls {V E : Type} (nilV : V)
    (b : BoundedCache V) (key : string) (val : V) (ops : list (op V E))
    (e : E) :
  1 ≤ maxItemMapLen b → len (freshItems b) ≤ maxItemMapLen b →
  Forall (λ o, o ≠ OpPurge) ops →
  Z.of_nat (length ops) ≤ maxItemMapLen b →
  let b' := (run nilV ops ((Add key val b).2, e)).2.1 in
  (Peek nilV key b').1.2 = true ∧
  (Forall (λ o, ∀ v, o ≠ OpAdd key v) ops →
   (Peek nilV key b').1 = (val, true)).
Proof.
  intros Hh Hf Hnp Hlen b'. unfold Add in b'.
  set (b1 := (addLocked key val b).2) in *.
  assert (Hh1 : maxItemMapLen b1 = maxItemMapLen b)
    by apply addLocked_maxItemMapLen.
  assert (Hf1 : len (freshItems b1) ≤ maxItemMapLen b)
    by (by apply addLocked_fresh_len).
  assert (Hlife : maxItemMapLen b ≤ life key b1).
  { unfold life. subst b1. rewrite addLocked_fresh_lookup.
    rewrite addLocked_maxItemMapLen. lia. }
  destruct (run_life nilV key ops b1 e) as [Hl Hr]; try lia; try done.
  fold b' in Hl, Hr. split.
  - apply Peek_found_is_Some. by apply life_resident.
  - intros Hna. apply Peek_found_resident. rewrite Hr by done.
    apply resident_addLocked_eq.
Qed.

Lemma entry_survives_half_capacity_calls_witness :
  let b := mkBoundedCache (V := nat) {[ "s" := 9%nat ]} {[ "a" := 1%nat ]} 2 in
  let ops : list (op nat unit) := [OpAdd "b" 2%nat; OpAdd "c" 3%nat] in
  let b' := (run 0%nat ops ((Add "k" 7%nat b).2, tt)).2.1 in
  (1 ≤ maxItemMapLen b ∧ len (freshItems b) ≤ maxItemMapLen b ∧
   Z.of_nat (length ops) ≤ maxItemMapLen b) ∧
  b' = mkBoundedCache {[ "a" := 1%nat; "k" := 7%nat ]}
                      {[ "b" := 2%nat; "c" := 3%nat ]} 2 ∧
  (Peek 0%nat "k" b').1 = (7%nat, true).
Proof.
  intros b ops b'.
  assert (H1 : 1 ≤ maxItemMapLen b) by (by vm_compute).
  assert (H2 : len (freshItems b) ≤ maxItemMapLen b) by (by vm_compute).
  assert (H3 : Z.of_nat (length ops) ≤ maxItemMapLen b) by (by vm_compute).
  assert (H4 : Forall (λ o : op nat unit, o ≠ OpPurge) ops)
    by (repeat constructor; discriminate).
  assert (H5 : Forall (λ o : op nat unit, ∀ v, o ≠ OpAdd "k" v) ops)
    by (repeat constructor; intros v; discriminate).
  split; [by repeat split|]. split; [by vm_compute|].
  exact (proj2 (entry_survives_half_capacity_calls 0%nat b "k" 7%nat ops tt
                  H1 H2 H4 H3) H5).
Defined.

(** ** What [Len] counts *)

(** X11. [Len()] counts entries, not keys: as long as the sum fits an [int],
    it is the number of distinct keys held plus the number of keys held by
    both generations; for disjoint generations it is the number of keys. *)
Theorem Len_counts_keys {V : Type} (b : BoundedCache V) :
  len (freshItems b) + len (staleItems b) ≤ GoInt.max_int →
  Len b = Z.of_nat (size (dom (freshItems b) ∪ dom (staleItems b)))
          + Z.of_nat (size (dom (freshItems b) ∩ dom (staleItems b))) ∧
  (generations_disjoint b →
   Len b = Z.of_nat (size (dom (freshItems b) ∪ dom (staleItems b)))).
Proof.
  intros Hsum.
  set (X := dom (freshItems b)). set (Y := dom (staleItems b)).
  assert (HX : len (freshItems b) = Z.of_nat (size X))
    by (unfold len, X; by rewrite size_dom).
  assert (HY : len (staleItems b) = Z.of_nat (size Y))
    by (unfold len, Y; by rewrite size_dom).
  assert (Hu : size (X ∪ Y) = (size X + size (Y ∖ X))%nat)
    by apply size_union_alt.
  assert (Hy : size Y = (size (X ∩ Y) + size (Y ∖ X))%nat).
  { rewrite <- size_union
      by (intros x [Hx _]%elem_of_intersection [_ Hnx]%elem_of_difference;
          done).
    f_equal.
    apply set_eq. intros x. rewrite elem_of_union, elem_of_intersection,
      elem_of_difference. destruct (decide (x ∈ X)); tauto. }
  assert (HLen : Len b = Z.of_nat (size X) + Z.of_nat (size Y)).
  { unfold Len, GoInt.add. rewrite wrap_small; [lia|].
    unfold GoInt.in_range, GoInt.min_int, GoInt.max_int in *. lia. }
  split; [lia|].
  intros Hd. unfold generations_disjoint in Hd. fold X Y in Hd.
  assert (Hi : size (X ∩ Y) = 0%nat).
  { apply size_empty_iff, elem_of_equiv_empty.
    intros x [? ?]%elem_of_intersection. by apply (Hd x). }
  lia.
Qed.

Lemma Len_counts_keys_witness :
  let b := mkBoundedCache (V := nat) {[ "a" := 1%nat; "b" := 2%nat ]}
                          {[ "c" := 3%nat; "a" := 4%nat ]} 3 in
  len (freshItems b) + len (staleItems b) ≤ GoInt.max_int ∧
  Len b = 4 ∧
  Z.of_nat (size (dom (freshItems b) ∪ dom (staleItems b))) = 3 ∧
  Len b = Z.of_nat (size (dom (freshItems b) ∪ dom (staleItems b)))
          + Z.of_nat (size (dom (freshItems b) ∩ dom (staleItems b))).
Proof.
  intros b.
  assert (H : len (freshItems b) + len (staleItems b) ≤ GoInt.max_int)
    by (by vm_compute).
  split; [exact H|]. split; [reflexivity|]. split; [by vm_compute|].
  exact (proj1 (Len_counts_keys b H)).
Defined.

(** ** The capacity bound *)

Section Capacity.
Context {V E : Type}.
Variable nilV : V.

Lemma run_within_bounds (ops : list (op V E)) (b : BoundedCache V) e :
  1 ≤ maxItemMapLen b → within_bounds b →
  maxItemMapLen (run nilV ops (b, e)).2.1 = maxItemMapLen b ∧
  within_bounds (run nilV ops (b, e)).2.1.
Proof.
  intros Hh Hb.
  assert (Hr : reachable nilV b (run nilV ops (b, e)).2)
    by (apply run_reachable; constructor).
  split; [by apply (reachable_maxItemMapLen nilV _ _ _ Hr)|].
  apply (reachable_preserves nilV
           (λ b, 1 ≤ maxItemMapLen b ∧ within_bounds b)) in Hr;
    [by destruct Hr|intros o b1 e1 [? ?] _|done].
  rewrite step_maxItemMapLen. split; [done|]. by apply step_within_bounds.
Qed.
End Capacity.

(** X12. The cache never holds more than its capacity: for
    [1 <= maxItems < 2^63 - 1], after any sequence of calls on a new cache
    each generation holds at most [maxItemMapLen] entries and
    [0 <= Len() <= MaxItems() = 2 * ceil(maxItems / 2)]. *)
Theorem Len_within_capacity {V E : Type} (nilV : V) (maxItems : Z)
    (b0 : BoundedCache V) (ops : list (op V E)) (e : E) :
  1 ≤ maxItems < GoInt.max_int →
  NewBoundedCache maxItems = Ok b0 →
  let b := (run nilV ops (b0, e)).2.1 in
  within_bounds b ∧
  0 ≤ Len b ≤ MaxItems b ∧
  MaxItems b = 2 * ceil_half maxItems.
Proof.
  intros Hm Hnew b.
  assert (Hr : reachable nilV b0 (run nilV ops (b0, e)).2)
    by (apply run_reachable; constructor).
  destruct (reachable_within_bounds nilV maxItems b0 _ Hm Hnew Hr)
    as [Hb HLen].
  pose proof (reachable_maxItemMapLen nilV _ _ _ Hr) as Hh.
  fold b in Hb, HLen, Hh.
  rewrite NewBoundedCache_Ok in Hnew by lia. injection Hnew as <-.
  simpl in Hh. rewrite half_capacity_exact in Hh by done.
  pose proof (ceil_half_least maxItems) as Hc.
  assert (Hcap : MaxItems b = 2 * ceil_half maxItems).
  { unfold MaxItems, GoInt.mul. rewrite Hh, wrap_small; [lia|].
    unfold GoInt.in_range, GoInt.min_int, GoInt.max_int in *. lia. }
  split; [done|]. split; [|done].
  destruct Hb as (Hf & Hs & Hsum). rewrite HLen, Hcap.
  pose proof (len_nonneg (freshItems b)).
  pose proof (len_nonneg (staleItems b)). lia.
Qed.

Lemma Len_within_capacity_witness :
  let ops : list (op nat unit) :=
    [OpAdd "a" 1%nat; OpAdd "b" 2%nat; OpAdd "c" 3%nat; OpAdd "d" 4%nat;
     OpAdd "e" 5%nat; OpGet "c"] in
  let b := (run 0%nat ops
              (mkBoundedCache ∅ ∅ (GoInt.quot (GoInt.add 3 1) 2), tt)).2.1 in
  1 ≤ 3 < GoInt.max_int ∧
  within_bounds b ∧ 0 ≤ Len b ≤ MaxItems b ∧ MaxItems b = 2 * ceil_half 3.
Proof.
  intros ops b.
  assert (Hm : 1 ≤ 3 < GoInt.max_int) by (unfold GoInt.max_int; lia).
  split; [exact Hm|].
  exact (Len_within_capacity 0%nat 3 _ ops tt Hm eq_refl).
Defined.

(** ** The older cache *)

(** X13. The older constructor fails exactly when [maxItems < 2]; for every
    [int] [maxItems >= 2] it returns a cache with two empty generations, a
    half capacity of at least 1 and capacity [2 * floor(maxItems / 2)], the
    largest even number not above [maxItems]. *)
Theorem Legacy_New_capacity {V : Type} (maxItems : Z) :
  GoInt.in_range maxItems →
  (maxItems < 2 ↔ ∃ msg, Legacy.New (V := V) maxItems = Err msg) ∧
  (2 ≤ maxItems →
   ∃ bo : Legacy.BoundedCache V,
     Legacy.New maxItems = Ok bo ∧
     Legacy.staleItems bo = ∅ ∧ Legacy.freshItems bo = ∅ ∧
     Legacy.Len bo = 0 ∧
     1 ≤ Legacy.maxItemMapLen bo ∧
     Legacy.MaxItems bo = 2 * (maxItems / 2) ∧
     maxItems - 1 ≤ Legacy.MaxItems bo ≤ maxItems).
Proof.
  intros Hr. unfold GoInt.in_range, GoInt.min_int, GoInt.max_int in Hr.
  unfold Legacy.New. destruct (maxItems <? 2) eqn:Hlt.
  - apply Z.ltb_lt in Hlt. split; [split; [eauto|done]|lia].
  - apply Z.ltb_ge in Hlt. split.
    { split; [lia|]. intros [msg Hmsg]. discriminate. }
    intros _. eexists. split; [done|]. simpl.
    pose proof (Z.div_mod maxItems 2 ltac:(lia)).
    pose proof (Z.mod_pos_bound maxItems 2 ltac:(lia)).
    assert (Hq : GoInt.quot maxItems 2 = maxItems / 2).
    { unfold GoInt.quot. rewrite Z.quot_div_nonneg by lia.
      apply wrap_small.
      unfold GoInt.in_range, GoInt.min_int, GoInt.max_int. lia. }
    assert (Hc : Legacy.MaxItems
                   (Legacy.mkBoundedCache (V := V) ∅ ∅ (GoInt.quot maxItems 2))
                 = 2 * (maxItems / 2)).
    { unfold Legacy.MaxItems, GoInt.mul. simpl. rewrite Hq.
      rewrite wrap_small; [lia|].
      unfold GoInt.in_range, GoInt.min_int, GoInt.max_int. lia. }
    split; [done|]. split; [done|]. split; [reflexivity|].
    rewrite Hc, Hq. lia.
Qed.

Lemma Legacy_New_capacity_witness :
  GoInt.in_range 7 ∧ 2 ≤ 7 ∧
  ∃ bo : Legacy.BoundedCache nat,
    Legacy.New 7 = Ok bo ∧
    Legacy.staleItems bo = ∅ ∧ Legacy.freshItems bo = ∅ ∧
    Legacy.Len bo = 0 ∧
    1 ≤ Legacy.maxItemMapLen bo ∧
    Legacy.MaxItems bo = 2 * (7 / 2) ∧
    7 - 1 ≤ Legacy.MaxItems bo ≤ 7.
Proof.
  assert (Hr : GoInt.in_range 7)
    by (unfold GoInt.in_range, GoInt.min_int, GoInt.max_int; lia).
  assert (H2 : 2 ≤ 7) by lia.
  split; [exact Hr|]. split; [exact H2|].
  exact (proj2 (Legacy_New_capacity (V := nat) 7 Hr) H2).
Defined.

(** X14. The older cache never holds more than its capacity, for every
    [maxItems] its constructor accepts (the largest [int] included): after
    any sequence of calls on a new cache each generation holds at most
    [maxItemMapLen] entries and [Len() <= MaxItems() <= maxItems]. *)
Theorem Legacy_within_capacity {V E : Type} (nilV : V) (maxItems : Z)
    (bo : Legacy.BoundedCache V) (ops : list (op V E)) (e : E)
    (rs : list (ret V)) (so : Legacy.BoundedCache V * E) :
  GoInt.in_range maxItems →
  Legacy.New maxItems = Ok bo →
  Legacy.run nilV ops (bo, e) = Some (rs, so) →
  len (Legacy.freshItems so.1) ≤ Legacy.maxItemMapLen so.1 ∧
  len (Legacy.staleItems so.1) ≤ Legacy.maxItemMapLen so.1 ∧
  Legacy.Len so.1
    = len (Legacy.freshItems so.1) + len (Legacy.staleItems so.1) ∧
  Legacy.Len so.1 ≤ Legacy.MaxItems so.1 ≤ maxItems.
Proof.
  intros Hr Hnew Hrun.
  unfold GoInt.in_range, GoInt.min_int, GoInt.max_int in Hr.
  unfold Legacy.New in Hnew.
  destruct (maxItems <? 2) eqn:Hlt; [done|]. apply Z.ltb_ge in Hlt.
  injection Hnew as <-.
  pose proof (Z.div_mod maxItems 2 ltac:(lia)).
  pose proof (Z.mod_pos_bound maxItems 2 ltac:(lia)).
  assert (Hq : GoInt.quot maxItems 2 = maxItems / 2).
  { unfold GoInt.quot. rewrite Z.quot_div_nonneg by lia.
    apply wrap_small.
    unfold GoInt.in_range, GoInt.min_int, GoInt.max_int. lia. }
  set (bn := mkBoundedCache (V := V) ∅ ∅ (GoInt.quot maxItems 2)).
  assert (Hsame : same_cache
            (Legacy.mkBoundedCache ∅ ∅ (GoInt.quot maxItems 2)) bn)
    by done.
  destruct (run_sim nilV ops _ bn e rs so Hsame Hrun)
    as (rs_n & bn' & Hn & (Hs' & Hf' & Hh') & _).
  destruct (run_within_bounds nilV ops bn e) as [Hh (Hbf & Hbs & Hsum)].
  { simpl. lia. }
  { unfold within_bounds, bn. simpl. rewrite len_empty. lia. }
  rewrite Hn in Hh, Hbf, Hbs, Hsum. simpl in Hh, Hbf, Hbs, Hsum.
  rewrite Hq in Hh.
  unfold Legacy.Len, Legacy.MaxItems, GoInt.add, GoInt.mul.
  rewrite Hs', Hf', Hh', Hh.
  pose proof (len_nonneg (freshItems bn')).
  pose proof (len_nonneg (staleItems bn')).
  rewrite !wrap_small
    by (unfold GoInt.in_range, GoInt.min_int, GoInt.max_int; lia).
  lia.
Qed.

Lemma Legacy_within_capacity_witness :
  let ops : list (op nat unit) :=
    [OpAdd "a" 1%nat; OpAdd "b" 2%nat; OpAdd "c" 3%nat; OpGet "a"] in
  let so := (Legacy.mkBoundedCache {[ "b" := 2%nat ]}
               {[ "c" := 3%nat; "a" := 1%nat ]} 2, tt) in
  GoInt.in_range 5 ∧
  Legacy.run 0%nat ops (Legacy.mkBoundedCache ∅ ∅ (GoInt.quot 5 2), tt)
    = Some ([RetAdd false; RetAdd false; RetAdd true; RetGet 1%nat true false],
            so) ∧
  Legacy.Len so.1 ≤ Legacy.MaxItems so.1 ≤ 5.
Proof.
  intros ops so.
  assert (Hr : GoInt.in_range 5)
    by (unfold GoInt.in_range, GoInt.min_int, GoInt.max_int; lia).
  split; [exact Hr|]. split; [reflexivity|].
  exact (proj2 (proj2 (proj2
           (Legacy_within_capacity 0%nat 5 _ ops tt _ so Hr
              eq_refl eq_refl)))).
Defined.

(** X15. For string keys the older cache reads what it writes: after
    [Add(key, val)], [Get(key)] returns [val] without eviction and without
    changing the cache, and [GetOrCreate(key, create)] returns [val] with
    [created = false] without invoking [create]; after [Purge], [Get]
    misses and [Len()] is 0.  (Keys of other dynamic types are outside the
    embedding: a key that is not equal to itself, such as a NaN, is never
    found again, and a key that cannot be hashed makes the map access
    panic.) *)
Theorem Legacy_Add_then_Get {V E : Type} (nilV : V)
    (bo : Legacy.BoundedCache V) (key : string) (val : V)
    (create : E → V * E) (e : E) :
  let bo' := (Legacy.Add key val bo).2 in
  Legacy.Get nilV key bo' = ((val, true, false), bo') ∧
  Legacy.GetOrCreate key create bo' e = ((val, false, false), bo', e) ∧
  Legacy.Get nilV key (Legacy.Purge bo)
    = ((nilV, false, false), Legacy.Purge bo) ∧
  Legacy.Len (Legacy.Purge bo) = 0.
Proof.
  intros bo'.
  assert (Hk : Legacy.freshItems bo' !! key = Some val).
  { subst bo'. unfold Legacy.Add, Legacy.addLocked.
    destruct (Legacy.maxItemMapLen bo <=? len (Legacy.freshItems bo));
      simpl; apply lookup_insert_eq. }
  unfold Legacy.Get, Legacy.GetOrCreate. rewrite Hk.
  split; [done|]. split; [done|]. split; [|reflexivity].
  simpl. by rewrite lookup_empty.
Qed.

(** ** Invocations of [create] over a sequence of calls *)

Section Counting.
Context {V E : Type}.
Variable nilV : V.

Lemma step_counted (o : op V E) (b : BoundedCache V) e (n : nat) :
  let r := step nilV o (b, e) in
  step nilV (counted o) (b, (e, n)) =
    (r.1, (r.2.1, (r.2.2, if created_of r.1 then S n else n))).
Proof.
  destruct o as [key val|key|key|key create| | |]; simpl; try done.
  - unfold Add. by destruct (addLocked key val b).
  - by destruct (Get nilV key b) as [[[? ?] ?] ?].
  - by destruct (Peek nilV key b) as [[? ?] ?].
  - unfold GetOrCreate.
    destruct (freshItems b !! key) as [v|]; [done|].
    destruct (staleItems b !! key) as [v|].
    + by destruct (addLocked key v (deleteStale key b)).
    + unfold counting. simpl. destruct (create e) as [v e'].
      by destruct (addLocked key v b).
Qed.
End Counting.

(** X16. Over any sequence of calls, [create] is invoked once for every
    result with [created = true] and never otherwise: with counting
    [create] functions the counter ends at its start plus the number of
    such results, and the results, the cache and the caller's world are
    those of the same calls without the counter. *)
Theorem create_invoked_once_per_created {V E : Type} (nilV : V)
    (ops : list (op V E)) (b : BoundedCache V) (e : E) (n : nat) :
  let r := run nilV ops (b, e) in
  let rc := run nilV (counted <$> ops) (b, (e, n)) in
  rc.1 = r.1 ∧ rc.2.1 = r.2.1 ∧ rc.2.2.1 = r.2.2 ∧
  rc.2.2.2 = (n + length (filter (λ x, created_of x = true) r.1))%nat.
Proof.
  revert b e n. induction ops as [|o ops IH]; intros b e n.
  { simpl. repeat split. lia. }
  cbv zeta. rewrite fmap_cons, !run_cons, step_counted.
  destruct (step nilV o (b, e)) as [r1 [b1 e1]]. simpl.
  specialize (IH b1 e1 (if created_of r1 then S n else n)).
  cbv zeta in IH.
  destruct (run nilV ops (b1, e1)) as [rs [b2 e2]].
  destruct (run nilV (counted <$> ops)
              (b1, (e1, if created_of r1 then S n else n)))
    as [rsc [b2c [e2c n2]]].
  simpl in *. destruct IH as (-> & -> & -> & ->).
  repeat split. rewrite filter_cons.
  destruct (created_of r1) eqn:Hc.
  - rewrite decide_True by done. simpl. lia.
  - rewrite decide_False by done. lia.
Qed.
